(** * SILGen: lowering of type-checked ASTs to SIL

    A shallow embedding of [lib/SIL/SILGen/SILGen.cpp]: the per-function
    lowering context [SILGenFunction] with its end-of-scope epilogue, the
    module-level orchestrator [SILGenModule] with its emission policies,
    the type-level coordinator [SILGenType], and the entry point
    [SILModule::constructSIL].

    Conventions.
    - C++ objects reached through a pointer that nobody else holds are
      threaded by value: the [Function] returned by [preEmitFunction] is
      owned by the one [SILGenFunction] built over it until
      [postEmitFunction] stores it.
    - A failed [assert] (and a failed [verify]) aborts the pass; it is the
      outcome [Fault], which carries the message of the assertion.
    - Classes declared in headers that are not part of this file
      (SILBuilder, CleanupManager, SILConstant, BasicBlock, the AST nodes)
      are modelled from the design document; each such definition says so. *)

From stdpp Require Import base option list strings gmap.

Set Default Proof Using "Type".

(** ** Outcomes of a step that may abort *)

Inductive Outcome (A : Type) : Type :=
| Ok (a : A)
| Fault (msg : string).
Arguments Ok {A} a.
Arguments Fault {A} msg.

(** ** AST side (read-only input) *)

(** Modelled from the spec: AST types are declared outside this file.  A
    canonical type is compared structurally ([isEqual]); the context's
    [TheEmptyTupleType] is the tuple type without elements. *)
#[warnings="-register-all"]
Inductive ASTType : Type :=
| TupleType (elements : list ASTType)
| NominalType (decl : nat)
| FunctionType (input result : ASTType).

Definition TheEmptyTupleType : ASTType := TupleType [].

Fixpoint ASTType_isEqual (a b : ASTType) {struct a} : bool :=
  match a, b with
  | TupleType xs, TupleType ys =>
      (fix all2 (xs ys : list ASTType) {struct xs} : bool :=
         match xs, ys with
         | [], [] => true
         | x :: xs', y :: ys' => ASTType_isEqual x y && all2 xs' ys'
         | _, _ => false
         end) xs ys
  | NominalType d, NominalType e => Nat.eqb d e
  | FunctionType i r, FunctionType j s =>
      ASTType_isEqual i j && ASTType_isEqual r s
  | _, _ => false
  end.

(** Identity of an AST node: its address. *)
Abbreviation NodeId := nat.

(** Modelled from the spec: the AST nodes are declared outside this file.
    Each record keeps the identity of its node and what this file asks of
    it: whether there is a body, the result type, whether the constructed
    type has reference semantics.  The contents of a statement block are
    walked by lowering code that is not part of this file; only its
    identity is needed here. *)
Record BraceStmt := { brace_id : NodeId }.

Record FuncExpr := {
  fe_id : NodeId;
  fe_body : option BraceStmt;          (* getBody(), null for a prototype *)
  fe_resultType : ASTType              (* getResultType(ctx) *)
}.

Record FuncDecl := {
  fd_id : NodeId;
  fd_body : FuncExpr                   (* FuncDecl::getBody() *)
}.

Record ClosureExpr := { ce_id : NodeId }.

Record ConstructorDecl := {
  ctor_id : NodeId;
  ctor_body : option BraceStmt;        (* getBody(), null for a prototype *)
  (* getImplicitThisDecl()->getType()->hasReferenceSemantics() *)
  ctor_thisHasReferenceSemantics : bool
}.

Record DestructorDecl := { dtor_id : NodeId }.

Record ClassDecl := { class_id : NodeId }.

(** [dyn_cast<ClassDecl>(theType)] succeeds exactly on [ClassNominal]. *)
Inductive NominalTypeDecl : Type :=
| ClassNominal (cd : ClassDecl)
| ValueNominal (id : NodeId).

Definition dyn_cast_ClassDecl (t : NominalTypeDecl) : option ClassDecl :=
  match t with
  | ClassNominal cd => Some cd
  | ValueNominal _ => None
  end.

Record TopLevelCodeDecl := { tlc_id : NodeId }.

Record PatternBindingDecl := { pbd_id : NodeId }.

(** ** SIL side *)

(** [SILConstant::Loc]: a [ValueDecl*] or a [CapturingExpr*]. *)
Inductive Loc : Type :=
| ValueDeclLoc (d : NodeId)
| CapturingExprLoc (e : NodeId).

(** Modelled from the spec: SILConstant is declared outside this file.  The
    data model gives an emission key a declaration and a role among Plain,
    Initializer, Destructor and Allocator.  This file names two of them,
    [SILConstant::Initializer] and [SILConstant::Destructor], and
    otherwise builds keys from the declaration alone. *)
Inductive Role : Type := Plain | Initializer | Destructor | Allocator.

Record SILConstant := mkSILConstant { loc : Loc; kind : Role }.

(** The one-argument constructor [SILConstant constant(decl)], as written
    for plain functions, closures and constructors alike: no role is
    passed.  For a constructor it is called once, before the test on
    reference semantics.  The design document names the role of the key
    of a value constructor, which is built this way, Plain. *)
Definition SILConstant_of (l : Loc) : SILConstant := mkSILConstant l Plain.

#[global] Instance Loc_eq_dec : EqDecision Loc.
Proof. solve_decision. Defined.
#[global] Instance Role_eq_dec : EqDecision Role.
Proof. solve_decision. Defined.
#[global] Instance SILConstant_eq_dec : EqDecision SILConstant.
Proof. solve_decision. Defined.

Definition Loc_to_sum (l : Loc) : nat + nat :=
  match l with ValueDeclLoc d => inl d | CapturingExprLoc e => inr e end.
Definition Loc_of_sum (s : nat + nat) : Loc :=
  match s with inl d => ValueDeclLoc d | inr e => CapturingExprLoc e end.
Lemma Loc_of_to_sum l : Loc_of_sum (Loc_to_sum l) = l.
Proof. by destruct l. Qed.
#[global] Instance Loc_countable : Countable Loc :=
  inj_countable' Loc_to_sum Loc_of_sum Loc_of_to_sum.

Definition Role_to_nat (k : Role) : nat :=
  match k with Plain => 0 | Initializer => 1 | Destructor => 2 | Allocator => 3 end.
Definition Role_of_nat (n : nat) : Role :=
  match n with 0 => Plain | 1 => Initializer | 2 => Destructor | _ => Allocator end.
Lemma Role_of_to_nat k : Role_of_nat (Role_to_nat k) = k.
Proof. by destruct k. Qed.
#[global] Instance Role_countable : Countable Role :=
  inj_countable' Role_to_nat Role_of_nat Role_of_to_nat.

Definition SILConstant_to_pair (c : SILConstant) : Loc * Role := (loc c, kind c).
Definition SILConstant_of_pair (p : Loc * Role) : SILConstant :=
  mkSILConstant p.1 p.2.
Lemma SILConstant_of_to_pair c : SILConstant_of_pair (SILConstant_to_pair c) = c.
Proof. by destruct c. Qed.
#[global] Instance SILConstant_countable : Countable SILConstant :=
  inj_countable' SILConstant_to_pair SILConstant_of_pair SILConstant_of_to_pair.

(** Modelled from the spec: a lowered type, computed by the type converter,
    which is outside this file; only its identity matters here. *)
Record SILType := { siltype_id : nat }.

(** Modelled from the spec: a scope-exit action owned by the cleanup stack
    of a function; the code it emits is told apart by its identity. *)
Record Cleanup := { cleanup_id : nat }.

(** Modelled from the spec: a value is the result of the instruction that
    defines it, identified by its block and its position in the block;
    [NullValue] is the default-constructed [Value]. *)
Inductive Value : Type :=
| NullValue
| InstValue (bb : nat) (idx : nat).

(** Modelled from the spec: the instruction set is outside this file.  Only
    the operations this file invokes are distinguished: the empty tuple,
    the code a cleanup emits, the three terminators, and any other
    instruction. *)
Inductive Instruction : Type :=
| TupleInst (elements : list Value)
| CleanupInst (c : Cleanup)
| OtherInst (n : nat)
| ReturnInst (v : Value)
| UnreachableInst
| BranchInst (dest : nat).

Definition isTerminator (i : Instruction) : bool :=
  match i with
  | ReturnInst _ | UnreachableInst | BranchInst _ => true
  | _ => false
  end.

(** A basic block is its instructions in order. *)
Abbreviation BasicBlock := (list Instruction).

(** A block without terminator is open. *)
Definition isOpen (b : BasicBlock) : bool := forallb (fun i => negb (isTerminator i)) b.

Definition terminators (b : BasicBlock) : nat :=
  length (List.filter isTerminator b).

Record Function := { fnType : SILType; blocks : list BasicBlock }.

(** Number of open blocks of a function. *)
Definition openBlocks (f : Function) : nat :=
  length (List.filter isOpen (blocks f)).

(** Modelled from the spec: [new (M) Function(M, type)] makes a shell, a
    function of the given type without blocks. *)
Definition Function_new (t : SILType) : Function :=
  {| fnType := t; blocks := [] |}.

(** Modelled from the spec: [new (M) BasicBlock(&F)] appends a fresh empty
    block to [F]; the block is named by its index. *)
Definition BasicBlock_new (f : Function) : nat * Function :=
  (length (blocks f), {| fnType := fnType f; blocks := blocks f ++ [[]] |}).

Record SILModule := {
  toplevel : option Function;
  functions : gmap SILConstant Function
}.

(** Modelled from the spec: [new SILModule(ctx, hasTopLevel)] has an
    implicit top-level function exactly when [hasTopLevel], and an empty
    function table. *)
Definition SILModule_new (hasTopLevel : bool) (toplevelType : SILType) : SILModule :=
  {| toplevel := if hasTopLevel then Some (Function_new toplevelType) else None;
     functions := ∅ |}.

Definition hasFunction (m : SILModule) (c : SILConstant) : bool :=
  bool_decide (is_Some (functions m !! c)).

(** ** SILBuilder *)

(** Modelled from the spec: SILBuilder is declared outside this file.  A
    builder works on one function and has an insertion point: the block
    instructions are appended to, or none.  Nothing is appended without an
    insertion point, and emitting a terminator clears it.  The builder
    holds the function by reference; here it carries it. *)
Record SILBuilder := {
  builderF : Function;
  BB : option nat
}.

Definition hasValidInsertionPoint (b : SILBuilder) : bool :=
  bool_decide (is_Some (BB b)).

Definition appendInst (bb : nat) (i : Instruction) (f : Function) : Function :=
  {| fnType := fnType f; blocks := alter (fun blk => blk ++ [i]) bb (blocks f) |}.

Definition SILBuilder_insert (i : Instruction) (b : SILBuilder) : SILBuilder :=
  match BB b with
  | None => b
  | Some bb =>
      {| builderF := appendInst bb i (builderF b);
         BB := if isTerminator i then None else Some bb |}
  end.

(** The value the next instruction inserted at the current point defines. *)
Definition nextValue (b : SILBuilder) : Value :=
  match BB b with
  | None => NullValue
  | Some bb => InstValue bb (length (default [] (blocks (builderF b) !! bb)))
  end.

Definition createEmptyTuple (b : SILBuilder) : Value * SILBuilder :=
  (nextValue b, SILBuilder_insert (TupleInst []) b).

Definition createUnreachable (b : SILBuilder) : SILBuilder :=
  SILBuilder_insert UnreachableInst b.

Definition createReturn (v : Value) (b : SILBuilder) : SILBuilder :=
  SILBuilder_insert (ReturnInst v) b.

Definition createBranch (dest : nat) (b : SILBuilder) : SILBuilder :=
  SILBuilder_insert (BranchInst dest) b.

(** Modelled from the spec: block creation.  [emitBlock] starts a new block:
    an open current block first branches to it, then the new block becomes
    the insertion point. *)
Definition emitBlock (b : SILBuilder) : SILBuilder :=
  let '(bb, f) := BasicBlock_new (builderF b) in
  let b' := createBranch bb {| builderF := f; BB := BB b |} in
  {| builderF := builderF b'; BB := Some bb |}.

(** ** CleanupManager *)

(** Modelled from the spec: the cleanup stack is declared outside this
    file.  The most recently pushed cleanup is first.  Emitting a cleanup
    appends its code at the insertion point; emission does not pop. *)
Abbreviation CleanupManager := (list Cleanup).

Definition pushCleanup (c : Cleanup) (cs : CleanupManager) : CleanupManager :=
  c :: cs.

Definition emitCleanup (c : Cleanup) (b : SILBuilder) : SILBuilder :=
  SILBuilder_insert (CleanupInst c) b.

(** Every cleanup on the stack, most recently pushed first. *)
Definition emitCleanups (cs : CleanupManager) (b : SILBuilder) : SILBuilder :=
  foldl (fun b c => emitCleanup c b) b cs.

(** ** SILGenFunction *)

(** The builder [B] was made over [F], so [F] is [builderF B]; the
    reference [SGM] to the module-level state is threaded separately. *)
Record SILGenFunction := {
  B : SILBuilder;
  Cleanups : CleanupManager;
  hasVoidReturn : bool;
  epilogBB : option nat
}.

Definition F (sgf : SILGenFunction) : Function := builderF (B sgf).

Definition withBuilder (sgf : SILGenFunction) (b : SILBuilder) : SILGenFunction :=
  {| B := b; Cleanups := Cleanups sgf;
     hasVoidReturn := hasVoidReturn sgf; epilogBB := epilogBB sgf |}.

(** [static bool isVoidableType(Type type)] *)
Definition isVoidableType (type : ASTType) : bool :=
  ASTType_isEqual type TheEmptyTupleType.

(** [SILGenFunction::SILGenFunction(SGM, F, hasVoidReturn)]: an entry
    block is created in [F] and the builder is positioned on it. *)
Definition SILGenFunction_new (f : Function) (hasVoidReturn : bool) : SILGenFunction :=
  let '(entry, f') := BasicBlock_new f in
  {| B := {| builderF := f'; BB := Some entry |};
     Cleanups := [];
     hasVoidReturn := hasVoidReturn;
     epilogBB := None |}.

(** Modelled from the spec: [CleanupManager::emitReturnAndCleanups(loc,
    value)] emits every cleanup on the stack in reverse push order, then a
    return of [value]. *)
Definition emitReturnAndCleanups (returnValue : Value) (sgf : SILGenFunction) : SILGenFunction :=
  withBuilder sgf (createReturn returnValue (emitCleanups (Cleanups sgf) (B sgf))).

(** [SILGenFunction::~SILGenFunction()]: falling off the end of the
    function. *)
Definition SILGenFunction_destroy (sgf : SILGenFunction) : Outcome SILGenFunction :=
  if negb (hasValidInsertionPoint (B sgf)) then Ok sgf
  else if hasVoidReturn sgf then
    if bool_decide (is_Some (epilogBB sgf)) then Fault "epilog bb not terminated?!"
    else
      let '(emptyTuple, b) := createEmptyTuple (B sgf) in
      Ok (emitReturnAndCleanups emptyTuple (withBuilder sgf b))
  else Ok (withBuilder sgf (createUnreachable (B sgf))).

(** ** What the body lowering does to a context *)

(** Modelled from the spec: the AST walk that populates a body is outside
    this file.  It acts on a context through the builder and the cleanup
    stack only; a body is represented by the sequence of such calls. *)
Inductive LoweringStep : Type :=
| StepCreate (i : Instruction)       (* B.create...: any instruction *)
| StepEmitBlock                      (* B.emitBlock(new BasicBlock) *)
| StepPushCleanup (c : Cleanup)      (* Cleanups.push... *)
| StepReturn (v : Value).            (* Cleanups.emitReturnAndCleanups *)

Definition runStep (sgf : SILGenFunction) (st : LoweringStep) : SILGenFunction :=
  match st with
  | StepCreate i => withBuilder sgf (SILBuilder_insert i (B sgf))
  | StepEmitBlock => withBuilder sgf (emitBlock (B sgf))
  | StepPushCleanup c =>
      {| B := B sgf; Cleanups := pushCleanup c (Cleanups sgf);
         hasVoidReturn := hasVoidReturn sgf; epilogBB := epilogBB sgf |}
  | StepReturn v => emitReturnAndCleanups v sgf
  end.

Definition runSteps (steps : list LoweringStep) (sgf : SILGenFunction) : SILGenFunction :=
  foldl runStep sgf steps.

(** The cleanups a body pushes, in push order. *)
Definition pushedCleanups (steps : list LoweringStep) : list Cleanup :=
  omap (fun st => match st with StepPushCleanup c => Some c | _ => None end) steps.

(** The whole life of a context: construction over [f], the body, the
    destructor: a temporary [SILGenFunction] built over [f], on which one
    emitter is called, and which dies at the end of the statement. *)
Definition lowerBody (f : Function) (hasVoidReturn : bool)
    (steps : list LoweringStep) : Outcome SILGenFunction :=
  SILGenFunction_destroy (runSteps steps (SILGenFunction_new f hasVoidReturn)).

(** ** Declarations and translation units *)

(** Modelled from the spec: the members of a nominal type that matter to
    the coordinator: methods, constructors and destructors. *)
Inductive Member : Type :=
| MemberFunc (fd : FuncDecl)
| MemberConstructor (cd : ConstructorDecl)
| MemberDestructor (dd : DestructorDecl)
| MemberPatternBinding (pd : PatternBindingDecl).

(** Modelled from the spec: the kinds of top-level declarations the
    visitor dispatches on.  This file defines the visitors of functions
    and of pattern bindings. *)
Inductive Decl : Type :=
| FuncDeclD (fd : FuncDecl)
| PatternBindingDeclD (pd : PatternBindingDecl)
| NominalTypeDeclD (ntd : NominalTypeDecl) (members : list Member)
| TopLevelCodeDeclD (td : TopLevelCodeDecl).

Inductive TranslationUnitKind : Type := Library | Main | Repl.

Record TranslationUnit := {
  Kind : TranslationUnitKind;
  Decls : list Decl
}.

(** ** Collaborators outside this file *)

(** The type converter, the verifier and the emitters of SILGenFunction
    that walk an AST body are not part of this file; they are parameters.
    An emitter is given by the calls it makes on the context it runs in.
    An emitter that asks the module for a further emission (a closure
    inside a body) is outside this model. *)
Class External := {
  getConstantType : SILConstant -> SILType;
  toplevelType : SILType;
  verify : Function -> bool;
  SILGenFunction_emitFunction : FuncExpr -> list LoweringStep;
  SILGenFunction_emitClassConstructorAllocator : ConstructorDecl -> list LoweringStep;
  SILGenFunction_emitClassConstructorInitializer : ConstructorDecl -> list LoweringStep;
  SILGenFunction_emitValueConstructor : ConstructorDecl -> list LoweringStep;
  SILGenFunction_emitClosure : ClosureExpr -> list LoweringStep;
  SILGenFunction_emitDestructor : ClassDecl -> option DestructorDecl -> list LoweringStep;
  SILGenFunction_visitTopLevelCode : TopLevelCodeDecl -> list LoweringStep
}.

(** ** SILGenModule *)

(** What verbose mode writes to the error stream. *)
Inductive Dump : Type :=
| DumpConstant (c : SILConstant)
| DumpText (s : string)
| DumpType (t : SILType)
| DumpNode (n : NodeId)
| DumpFunction (f : Function).

(** [M.toplevel] and [TopLevelSGF->F] are one C++ object.  While
    [TopLevelSGF] exists it holds the current contents; they are stored
    back into [M.toplevel] when it is deleted.  [errs] is the error
    stream. *)
Record SILGenModule := {
  M : SILModule;
  TopLevelSGF : option SILGenFunction;
  Verbose : bool;
  errs : list Dump
}.

(** Code that runs on the module-level state and may abort. *)
Definition Gen (A : Type) : Type := SILGenModule -> Outcome A * SILGenModule.

Definition ret {A} (a : A) : Gen A := fun s => (Ok a, s).

Definition bind {A R} (m : Gen A) (k : A -> Gen R) : Gen R :=
  fun s =>
    match m s with
    | (Ok a, s') => k a s'
    | (Fault msg, s') => (Fault msg, s')
    end.

Notation "x <- m ;; k" := (bind m (fun x => k))
  (at level 100, m at next level, right associativity).
Notation "m ;;; k" := (bind m (fun _ => k))
  (at level 100, right associativity).

Definition assert (cond : bool) (msg : string) : Gen unit :=
  fun s => if cond then (Ok tt, s) else (Fault msg, s).

Definition dump (ds : list Dump) : Gen unit :=
  fun s =>
    (Ok tt,
     if Verbose s
     then {| M := M s; TopLevelSGF := TopLevelSGF s; Verbose := Verbose s;
             errs := errs s ++ ds |}
     else s).

Definition getModule : Gen SILModule := fun s => (Ok (M s), s).

Definition setFunction (c : SILConstant) (f : Function) : Gen unit :=
  fun s =>
    (Ok tt,
     {| M := {| toplevel := toplevel (M s);
                functions := <[c := f]> (functions (M s)) |};
        TopLevelSGF := TopLevelSGF s; Verbose := Verbose s; errs := errs s |}).

(** A temporary context over [f] running one emitter; its destructor runs
    before the next statement. *)
Definition withSILGenFunction (f : Function) (hasVoidReturn : bool)
    (steps : list LoweringStep) : Gen Function :=
  fun s =>
    match lowerBody f hasVoidReturn steps with
    | Ok sgf => (Ok (F sgf), s)
    | Fault msg => (Fault msg, s)
    end.

Section SILGen.
Context `{Ext : External}.

(** [SILGenModule::SILGenModule(M, verbose)] *)
Definition SILGenModule_new (m : SILModule) (verbose : bool) : SILGenModule :=
  {| M := m;
     TopLevelSGF :=
       match toplevel m with
       | Some tl => Some (SILGenFunction_new tl (*hasVoidReturn=*) true)
       | None => None
       end;
     Verbose := verbose;
     errs := [] |}.

(** [SILGenModule::~SILGenModule()]: [delete TopLevelSGF]. *)
Definition SILGenModule_destroy : Gen unit :=
  fun s =>
    match TopLevelSGF s with
    | None => (Ok tt, s)
    | Some sgf =>
        match SILGenFunction_destroy sgf with
        | Ok sgf' =>
            (Ok tt,
             {| M := {| toplevel := Some (F sgf'); functions := functions (M s) |};
                TopLevelSGF := None; Verbose := Verbose s; errs := errs s |})
        | Fault msg => (Fault msg, s)
        end
    end.

(** [SILGenModule::preEmitFunction(constant, astNode)] *)
Definition preEmitFunction (constant : SILConstant) (astNode : option NodeId) : Gen Function :=
  m <- getModule ;;
  assert (negb (hasFunction m constant)) "already generated function for constant!" ;;;
  dump ([DumpConstant constant; DumpText " : $"; DumpType (getConstantType constant)]
          ++ match astNode with Some n => [DumpNode n] | None => [] end) ;;;
  ret (Function_new (getConstantType constant)).

(** [SILGenModule::postEmitFunction(constant, F)] *)
Definition postEmitFunction (constant : SILConstant) (f : Function) : Gen unit :=
  dump [DumpFunction f] ;;;
  assert (verify f) "verify" ;;;
  setFunction constant f.

(** [SILGenModule::emitFunction(decl, fe)] *)
Definition SILGenModule_emitFunction (decl : Loc) (fe : FuncExpr) : Gen (option Function) :=
  (* Ignore prototypes. *)
  if bool_decide (fe_body fe = None) then ret None
  else
    let constant := SILConstant_of decl in
    f <- preEmitFunction constant (Some (fe_id fe)) ;;
    let hasVoidReturn := isVoidableType (fe_resultType fe) in
    f <- withSILGenFunction f hasVoidReturn (SILGenFunction_emitFunction fe) ;;
    postEmitFunction constant f ;;;
    ret (Some f).

(** [SILGenModule::visitFuncDecl(fd)] *)
Definition visitFuncDecl (fd : FuncDecl) : Gen unit :=
  SILGenModule_emitFunction (ValueDeclLoc (fd_id fd)) (fd_body fd) ;;; ret tt.

(** [SILGenModule::emitConstructor(decl)] *)
Definition emitConstructor (decl : ConstructorDecl) : Gen (option Function) :=
  (* Ignore prototypes. *)
  if bool_decide (ctor_body decl = None) then ret None
  else
    let constant := SILConstant_of (ValueDeclLoc (ctor_id decl)) in
    f <- preEmitFunction constant (Some (ctor_id decl)) ;;
    if ctor_thisHasReferenceSemantics decl then
      (* Class constructors have separate entry points for allocation and
         initialization. *)
      f <- withSILGenFunction f (*hasVoidReturn=*) true
             (SILGenFunction_emitClassConstructorAllocator decl) ;;
      postEmitFunction constant f ;;;
      let initConstant := mkSILConstant (ValueDeclLoc (ctor_id decl)) Initializer in
      initF <- preEmitFunction initConstant (Some (ctor_id decl)) ;;
      initF <- withSILGenFunction initF (*hasVoidReturn=*) true
                 (SILGenFunction_emitClassConstructorInitializer decl) ;;
      postEmitFunction initConstant initF ;;;
      ret (Some f)
    else
      (* Struct constructors do everything in a single function. *)
      f <- withSILGenFunction f (*hasVoidReturn=*) true
             (SILGenFunction_emitValueConstructor decl) ;;
      postEmitFunction constant f ;;;
      ret (Some f).

(** [SILGenModule::emitClosure(ce)] *)
Definition emitClosure (ce : ClosureExpr) : Gen Function :=
  let constant := SILConstant_of (CapturingExprLoc (ce_id ce)) in
  f <- preEmitFunction constant (Some (ce_id ce)) ;;
  f <- withSILGenFunction f (*hasVoidReturn=*) false (SILGenFunction_emitClosure ce) ;;
  postEmitFunction constant f ;;;
  ret f.

(** [SILGenModule::emitDestructor(cd, dd)]; [dd] may be null. *)
Definition emitDestructor (cd : ClassDecl) (dd : option DestructorDecl) : Gen Function :=
  let constant := mkSILConstant (ValueDeclLoc (class_id cd)) Destructor in
  f <- preEmitFunction constant (dtor_id <$> dd) ;;
  f <- withSILGenFunction f (*hasVoidReturn=*) true (SILGenFunction_emitDestructor cd dd) ;;
  postEmitFunction constant f ;;;
  ret f.

(** [SILGenModule::visitPatternBindingDecl(pd)]: nothing is generated. *)
Definition visitPatternBindingDecl (pd : PatternBindingDecl) : Gen unit :=
  ret tt.

(** ** SILGenType *)

Record SILGenType := {
  theType : NominalTypeDecl;
  explicitDestructor : option DestructorDecl
}.

(** [SILGenType::SILGenType(SGM, theType)] *)
Definition SILGenType_new (theType : NominalTypeDecl) : SILGenType :=
  {| theType := theType; explicitDestructor := None |}.

(** [SILGenType::~SILGenType()] *)
Definition SILGenType_destroy (sgt : SILGenType) : Gen unit :=
  (* Emit the destructor for a class type. *)
  match dyn_cast_ClassDecl (theType sgt) with
  | Some theClass => emitDestructor theClass (explicitDestructor sgt) ;;; ret tt
  | None =>
      assert (bool_decide (explicitDestructor sgt = None))
        "destructor in non-class type?!"
  end.

(** Modelled from the spec: member lowering registers an explicit
    destructor into the coordinator. *)
Definition registerDestructor (dd : DestructorDecl) (sgt : SILGenType) : SILGenType :=
  {| theType := theType sgt; explicitDestructor := Some dd |}.

(** Modelled from the spec: the member visitors of the coordinator are
    outside this file.  Methods and constructors go to the emission
    policies of the module; a destructor is registered. *)
Definition SILGenType_visit (sgt : SILGenType) (m : Member) : Gen SILGenType :=
  match m with
  | MemberFunc fd => visitFuncDecl fd ;;; ret sgt
  | MemberConstructor cd => emitConstructor cd ;;; ret sgt
  | MemberDestructor dd => ret (registerDestructor dd sgt)
  | MemberPatternBinding pd => ret sgt
  end.

Fixpoint SILGenType_visitAll (sgt : SILGenType) (ms : list Member) : Gen SILGenType :=
  match ms with
  | [] => ret sgt
  | m :: ms' => sgt' <- SILGenType_visit sgt m ;; SILGenType_visitAll sgt' ms'
  end.

(** Modelled from the spec: a nominal type is lowered inside the scope of
    one coordinator, which dies when its members have been visited. *)
Definition visitNominalTypeDecl (ntd : NominalTypeDecl) (members : list Member) : Gen unit :=
  sgt <- SILGenType_visitAll (SILGenType_new ntd) members ;;
  SILGenType_destroy sgt.

(** Modelled from the spec: top-level code is lowered into the implicit
    top-level context when the module has one. *)
Definition visitTopLevelCodeDecl (td : TopLevelCodeDecl) : Gen unit :=
  fun s =>
    (Ok tt,
     match TopLevelSGF s with
     | Some sgf =>
         {| M := M s;
            TopLevelSGF := Some (runSteps (SILGenFunction_visitTopLevelCode td) sgf);
            Verbose := Verbose s; errs := errs s |}
     | None => s
     end).

(** [sgm.visit(D)]: dispatch on the kind of declaration. *)
Definition visit (d : Decl) : Gen unit :=
  match d with
  | FuncDeclD fd => visitFuncDecl fd
  | PatternBindingDeclD pd => visitPatternBindingDecl pd
  | NominalTypeDeclD ntd members => visitNominalTypeDecl ntd members
  | TopLevelCodeDeclD td => visitTopLevelCodeDecl td
  end.

Fixpoint visitAll (ds : list Decl) : Gen unit :=
  match ds with
  | [] => ret tt
  | d :: ds' => visit d ;;; visitAll ds'
  end.

(** ** SILModule::constructSIL *)

Definition constructSIL_hasTopLevel (k : TranslationUnitKind) : bool :=
  match k with
  | Library => false
  | Main | Repl => true
  end.

(** The body of [constructSIL] on the state of its local [sgm], up to and
    including the destructor of [sgm] that runs at [return m]. *)
Definition constructSIL_run (tu : TranslationUnit) (verbose : bool)
    : Outcome unit * SILGenModule :=
  let hasTopLevel := constructSIL_hasTopLevel (Kind tu) in
  let m := SILModule_new hasTopLevel toplevelType in
  let sgm := SILGenModule_new m verbose in
  (visitAll (Decls tu) ;;; SILGenModule_destroy) sgm.

(** [SILModule::constructSIL(tu, verbose)] *)
Definition constructSIL (tu : TranslationUnit) (verbose : bool) : Outcome SILModule :=
  match constructSIL_run tu verbose with
  | (Ok _, sgm) => Ok (M sgm)
  | (Fault msg, _) => Fault msg
  end.

End SILGen.

(** ** Notions used to state the properties *)

(** The open blocks of the function under construction are exactly the
    insertion block: every open block is the insertion block, and a valid
    insertion point names an existing open block. *)
Definition openOnlyAt (ip : option nat) (bs : list BasicBlock) : bool :=
  forallb (fun p => negb (isOpen p.2) || bool_decide (ip = Some p.1)) (imap pair bs).

Definition insertionPointInv (b : SILBuilder) : bool :=
  openOnlyAt (BB b) (blocks (builderF b))
  && match BB b with
     | None => true
     | Some bb =>
         match blocks (builderF b) !! bb with
         | Some blk => isOpen blk
         | None => false
         end
     end.

(** The same invariant as a proposition. *)
Definition IPInv (b : SILBuilder) : Prop :=
  (forall n blk, blocks (builderF b) !! n = Some blk -> isOpen blk = true -> BB b = Some n)
  /\ (forall bb, BB b = Some bb ->
        exists blk, blocks (builderF b) !! bb = Some blk /\ isOpen blk = true).

(** The instruction that defines a value, if it names one. *)
Definition definingInst (f : Function) (v : Value) : option Instruction :=
  match v with
  | NullValue => None
  | InstValue bb idx => blocks f !! bb ≫= (fun blk => blk !! idx)
  end.

(** Several instructions appended to one block. *)
Definition appendInsts (bb : nat) (insts : list Instruction) (f : Function) : Function :=
  {| fnType := fnType f; blocks := alter (fun blk => blk ++ insts) bb (blocks f) |}.

(** What the destructor of a context does when it does not abort: nothing
    without insertion point; otherwise the insertion block receives the
    unit return sequence or the unreachable marker. *)
Definition epilogueInsts (sgf : SILGenFunction) : list Instruction :=
  if hasVoidReturn sgf
  then TupleInst [] :: map CleanupInst (Cleanups sgf) ++ [ReturnInst (nextValue (B sgf))]
  else [UnreachableInst].

Definition epilogue (sgf : SILGenFunction) : SILGenFunction :=
  match BB (B sgf) with
  | None => sgf
  | Some bb =>
      withBuilder sgf
        {| builderF := appendInsts bb (epilogueInsts sgf) (F sgf); BB := None |}
  end.

(** The function a context leaves behind. *)
Definition loweredFunction (f : Function) (hasVoidReturn : bool)
    (steps : list LoweringStep) : Function :=
  match lowerBody f hasVoidReturn steps with
  | Ok sgf => F sgf
  | Fault _ => f
  end.

(** The state after verbose mode wrote [ds], and after [f] was stored
    under [c]. *)
Definition logged (ds : list Dump) (s : SILGenModule) : SILGenModule := (dump ds s).2.

Definition stored (c : SILConstant) (f : Function) (s : SILGenModule) : SILGenModule :=
  (setFunction c f s).2.

Definition preDumps `{External} (c : SILConstant) (astNode : option NodeId) : list Dump :=
  [DumpConstant c; DumpText " : $"; DumpType (getConstantType c)]
    ++ match astNode with Some n => [DumpNode n] | None => [] end.

(** One emission: the shell is allocated, one context lowers into it, the
    result is verified and recorded.  Every emission policy is a sequence
    of these. *)
Definition emitOne `{External} (c : SILConstant) (astNode : option NodeId)
    (hasVoidReturn : bool) (steps : list LoweringStep) : Gen Function :=
  f <- preEmitFunction c astNode ;;
  f <- withSILGenFunction f hasVoidReturn steps ;;
  postEmitFunction c f ;;;
  ret f.

(** The function an emission under key [c] produces. *)
Definition emittedFunction `{External} (c : SILConstant) (hasVoidReturn : bool)
    (steps : list LoweringStep) : Function :=
  loweredFunction (Function_new (getConstantType c)) hasVoidReturn steps.

(** The state after a successful emission under key [c]. *)
Definition emitted `{External} (c : SILConstant) (astNode : option NodeId)
    (hasVoidReturn : bool) (steps : list LoweringStep) (s : SILGenModule) : SILGenModule :=
  let f := emittedFunction c hasVoidReturn steps in
  stored c f (logged [DumpFunction f] (logged (preDumps c astNode) s)).

(** A property of the state that every run keeps, whatever its outcome. *)
Definition preserves {A} (P : SILGenModule -> Prop) (m : Gen A) : Prop :=
  forall s, P s -> P (m s).2.

(** A function without open block and with at least one block. *)
Definition wellTerminated (f : Function) : Prop :=
  openBlocks f = 0 /\ 1 <= length (blocks f).

(** Properties kept by verbose output and by recording a well-terminated
    function under a key that is not yet in the table. *)
Record Stable (P : SILGenModule -> Prop) : Prop := {
  stable_logged : forall ds s, P s -> P (logged ds s);
  stable_stored : forall c f s,
    P s -> functions (M s) !! c = None -> wellTerminated f -> P (stored c f s)
}.

(** The part of the state no emission policy touches. *)
Definition frameOf (s : SILGenModule) : option Function * option SILGenFunction * bool :=
  (toplevel (M s), TopLevelSGF s, Verbose s).

(** The state in which the top-level context, if there is one, went
    through [g]. *)
Definition mapTopLevelSGF (g : SILGenFunction -> SILGenFunction) (s : SILGenModule)
    : SILGenModule :=
  {| M := M s; TopLevelSGF := g <$> TopLevelSGF s; Verbose := Verbose s; errs := errs s |}.

(** The steps the top-level code of a translation unit contributes. *)
Definition topLevelSteps `{External} (ds : list Decl) : list LoweringStep :=
  concat (map (fun d => match d with
                        | TopLevelCodeDeclD td => SILGenFunction_visitTopLevelCode td
                        | _ => []
                        end) ds).

(** The keys a run added to the function table. *)
Definition newKeys (s s' : SILGenModule) : gset SILConstant :=
  dom (functions (M s')) ∖ dom (functions (M s)).

(** The keys of a constructor as the design document words them: an
    Allocator and an Initializer key for a class, a Plain key otherwise. *)
Definition specifiedConstructorKeys (decl : ConstructorDecl) : gset SILConstant :=
  let loc := ValueDeclLoc (ctor_id decl) in
  if ctor_thisHasReferenceSemantics decl
  then {[ mkSILConstant loc Allocator; mkSILConstant loc Initializer ]}
  else {[ mkSILConstant loc Plain ]}.

(** ** A small instance, for the examples *)

(** A verifier that accepts the functions without open block, and
    emitters that fall off the end of the body they lower. *)
Definition demoExternal : External := {|
  getConstantType c := {| siltype_id := Role_to_nat (kind c) |};
  toplevelType := {| siltype_id := 0 |};
  verify f := bool_decide (openBlocks f = 0);
  SILGenFunction_emitFunction fe :=
    [StepPushCleanup {| cleanup_id := 1 |}; StepCreate (OtherInst (fe_id fe));
     StepPushCleanup {| cleanup_id := 2 |}];
  SILGenFunction_emitClassConstructorAllocator cd := [StepCreate (OtherInst 10)];
  SILGenFunction_emitClassConstructorInitializer cd := [StepCreate (OtherInst 11)];
  SILGenFunction_emitValueConstructor cd := [StepCreate (OtherInst 12)];
  SILGenFunction_emitClosure ce := [StepCreate (OtherInst 13); StepReturn NullValue];
  SILGenFunction_emitDestructor cd dd := [StepCreate (OtherInst 14)];
  SILGenFunction_visitTopLevelCode td := [StepCreate (OtherInst (tlc_id td))]
|}.

Definition demoBody : BraceStmt := {| brace_id := 50 |}.

Definition demoFuncExpr : FuncExpr :=
  {| fe_id := 1; fe_body := Some demoBody; fe_resultType := TheEmptyTupleType |}.

Definition demoPrototype : FuncExpr :=
  {| fe_id := 2; fe_body := None; fe_resultType := TheEmptyTupleType |}.

Definition demoClassCtor : ConstructorDecl :=
  {| ctor_id := 5; ctor_body := Some demoBody; ctor_thisHasReferenceSemantics := true |}.

Definition demoStructCtor : ConstructorDecl :=
  {| ctor_id := 6; ctor_body := Some demoBody; ctor_thisHasReferenceSemantics := false |}.

Definition demoPrototypeCtor : ConstructorDecl :=
  {| ctor_id := 7; ctor_body := None; ctor_thisHasReferenceSemantics := true |}.

Definition demoClass : ClassDecl := {| class_id := 8 |}.

Definition demoDestructor : DestructorDecl := {| dtor_id := 9 |}.

(** A module-level state with an empty table, in verbose mode. *)
Definition demoState : SILGenModule :=
  {| M := SILModule_new false {| siltype_id := 0 |};
     TopLevelSGF := None; Verbose := true; errs := [] |}.

Definition demoUnit : TranslationUnit :=
  {| Kind := Main;
     Decls := [FuncDeclD {| fd_id := 1; fd_body := demoFuncExpr |};
               TopLevelCodeDeclD {| tlc_id := 3 |};
               NominalTypeDeclD (ClassNominal demoClass)
                 [MemberConstructor demoClassCtor; MemberDestructor demoDestructor];
               PatternBindingDeclD {| pbd_id := 4 |}] |}.

(** The state after the destructor of [demoClass] was emitted. *)
Definition demoStateWithDestructor : SILGenModule :=
  (@emitDestructor demoExternal demoClass None demoState).2.

Definition demoLibrary : TranslationUnit :=
  {| Kind := Library;
     Decls := [FuncDeclD {| fd_id := 1; fd_body := demoFuncExpr |}] |}.

(** A context in the middle of a body: one open block holding one
    instruction, two cleanups on the stack. *)
Definition demoContext (hasVoidReturn : bool) : SILGenFunction :=
  runSteps [StepPushCleanup {| cleanup_id := 1 |}; StepCreate (OtherInst 7);
            StepPushCleanup {| cleanup_id := 2 |}]
    (SILGenFunction_new (Function_new {| siltype_id := 0 |}) hasVoidReturn).

(** ** Notions for the properties of the single functions *)

(** What one emission under key [c] of the function [f] may end in: [f]
    is recorded under [c], which was free, after it verified; or the pass
    aborts with the table as it was, on a key that is taken or on a
    function that does not verify. *)
Definition emissionOutcome `{External} {A} (c : SILConstant) (f : Function)
    (isResult : A -> Prop) (s : SILGenModule) (r : Outcome A * SILGenModule) : Prop :=
  match r with
  | (Ok a, s') =>
      isResult a
      /\ functions (M s) !! c = None /\ verify f = true
      /\ functions (M s') = <[c := f]> (functions (M s))
  | (Fault msg, s') =>
      functions (M s') = functions (M s)
      /\ ((msg = "already generated function for constant!"%string
           /\ is_Some (functions (M s) !! c))
          \/ (msg = "verify"%string
              /\ functions (M s) !! c = None /\ verify f = false))
  end.

(** Two states with the same module and the same top-level context: they
    may differ in the verbosity flag and in what was written so far. *)
Definition sameModule (s1 s2 : SILGenModule) : Prop :=
  M s1 = M s2 /\ TopLevelSGF s1 = TopLevelSGF s2.

(** A run that, from two such states, ends in the same outcome and in two
    such states. *)
Definition respects {A} (m : Gen A) : Prop :=
  forall s1 s2, sameModule s1 s2 ->
    (m s1).1 = (m s2).1 /\ sameModule (m s1).2 (m s2).2.

(** A declaration for which nothing is generated: a function without
    body, a pattern binding. *)
Definition emitsNothing (d : Decl) : Prop :=
  match d with
  | FuncDeclD fd => fe_body (fd_body fd) = None
  | PatternBindingDeclD _ => True
  | _ => False
  end.

(** An entry of the function table as the pass leaves it: the function
    verified and has the type the type converter gives for its key. *)
Definition entryVerified `{External} (c : SILConstant) (f : Function) : Prop :=
  verify f = true /\ fnType f = getConstantType c.

(** A table in which an initializer is never without its allocator. *)
Definition initializersFollowAllocators (t : gmap SILConstant Function) : Prop :=
  forall l, is_Some (t !! mkSILConstant l Initializer) -> is_Some (t !! SILConstant_of l).

(** A function with an open block, which [demoExternal] does not verify,
    and a state in which the Initializer key of [demoClassCtor] is taken. *)
Definition demoOpenFunction : Function :=
  {| fnType := {| siltype_id := 0 |}; blocks := [[OtherInst 1]] |}.

Definition demoStateWithInitializer : SILGenModule :=
  stored (mkSILConstant (ValueDeclLoc 5) Initializer)
    (Function_new {| siltype_id := 1 |}) demoState.

(** * Properties *)

(** ** Blocks *)

Lemma isOpen_app (a b : BasicBlock) : isOpen (a ++ b) = isOpen a && isOpen b.
Proof. apply forallb_app. Qed.

Lemma terminators_app (a b : BasicBlock) :
  terminators (a ++ b) = terminators a + terminators b.
Proof. unfold terminators. by rewrite List.filter_app, length_app. Qed.

Lemma isOpen_terminators (b : BasicBlock) : isOpen b = true <-> terminators b = 0.
Proof.
  unfold isOpen, terminators. induction b as [|i b IH]; simpl; [done|].
  destruct (isTerminator i); simpl; [split; [done | lia] | exact IH].
Qed.

Lemma isOpen_cleanups (cs : list Cleanup) : isOpen (map CleanupInst cs) = true.
Proof. unfold isOpen. by induction cs. Qed.

Lemma terminators_cleanups (cs : list Cleanup) : terminators (map CleanupInst cs) = 0.
Proof. apply isOpen_terminators, isOpen_cleanups. Qed.

Lemma openBlocks_zero (f : Function) :
  openBlocks f = 0 <-> forall n blk, blocks f !! n = Some blk -> isOpen blk = false.
Proof.
  unfold openBlocks. generalize (blocks f) as bs. intros bs. split.
  - induction bs as [|b bs IH]; intros Hlen n blk Hn; [done|].
    simpl in Hlen. destruct (isOpen b) eqn:Hb; [done|].
    destruct n as [|n]; simpl in Hn; [by simplify_eq | by eapply IH].
  - induction bs as [|b bs IH]; intros Hall; [done|]. simpl.
    rewrite (Hall 0 b eq_refl). apply IH. intros n blk Hn. by apply (Hall (S n)).
Qed.

(** ** The builder *)

Lemma appendInst_appendInsts bb i f : appendInst bb i f = appendInsts bb [i] f.
Proof. done. Qed.

Lemma appendInsts_appendInsts bb insts js f :
  appendInsts bb js (appendInsts bb insts f) = appendInsts bb (insts ++ js) f.
Proof.
  unfold appendInsts; simpl. f_equal.
  rewrite list_alter_alter_eq. apply list_alter_ext; [|done].
  intros blk _. simpl. by rewrite <- (assoc_L (++)).
Qed.

Lemma appendInsts_lookup_eq bb insts f :
  blocks (appendInsts bb insts f) !! bb = (fun blk => blk ++ insts) <$> blocks f !! bb.
Proof. apply list_lookup_alter_eq. Qed.

Lemma appendInsts_lookup_ne bb insts f n :
  n ≠ bb -> blocks (appendInsts bb insts f) !! n = blocks f !! n.
Proof. intros Hne. by apply list_lookup_alter_ne. Qed.

Lemma appendInsts_length bb insts f :
  length (blocks (appendInsts bb insts f)) = length (blocks f).
Proof. apply length_alter. Qed.

Lemma SILBuilder_insert_at i b bb :
  BB b = Some bb ->
  SILBuilder_insert i b =
  {| builderF := appendInsts bb [i] (builderF b);
     BB := if isTerminator i then None else Some bb |}.
Proof. intros Hbb. unfold SILBuilder_insert. by rewrite Hbb. Qed.

Lemma SILBuilder_insert_invalid i b : BB b = None -> SILBuilder_insert i b = b.
Proof. intros Hbb. unfold SILBuilder_insert. by rewrite Hbb. Qed.

Lemma emitCleanups_at cs b bb :
  BB b = Some bb ->
  emitCleanups cs b =
  {| builderF := appendInsts bb (map CleanupInst cs) (builderF b); BB := Some bb |}.
Proof.
  unfold emitCleanups. revert b. induction cs as [|c cs IH]; intros b Hbb; simpl.
  - destruct b as [f ip]; simpl in *. subst ip. f_equal.
    unfold appendInsts. destruct f as [t bs]; simpl. f_equal.
    symmetry. apply list_alter_id. intros blk. apply app_nil_r.
  - unfold emitCleanup at 2. rewrite (SILBuilder_insert_at _ _ bb Hbb); simpl.
    rewrite IH by done. simpl. by rewrite appendInsts_appendInsts.
Qed.

Lemma emitCleanups_invalid cs b : BB b = None -> emitCleanups cs b = b.
Proof.
  unfold emitCleanups. induction cs as [|c cs IH]; intros Hbb; simpl; [done|].
  unfold emitCleanup at 2. rewrite SILBuilder_insert_invalid by done. by apply IH.
Qed.

(** ** The insertion-point invariant *)

Lemma openOnlyAt_spec ip bs :
  openOnlyAt ip bs = true <->
  forall n blk, bs !! n = Some blk -> isOpen blk = true -> ip = Some n.
Proof.
  unfold openOnlyAt. rewrite forallb_forall. split.
  - intros Hall n blk Hn Hopen.
    assert (In (n, blk) (imap pair bs)) as Hin
      by (by apply list_elem_of_In, (elem_of_lookup_imap_2 pair)).
    specialize (Hall (n, blk) Hin). simpl in Hall. rewrite Hopen in Hall. simpl in Hall.
    by case_bool_decide.
  - intros Hall [n blk] Hin. simpl.
    apply list_elem_of_In, elem_of_lookup_imap in Hin as (i & y & Heq & Hi).
    simplify_eq. destruct (isOpen y) eqn:Hopen; simpl; [|done].
    case_bool_decide as Hip; [done|]. destruct Hip. by eapply Hall.
Qed.

Lemma insertionPointInv_spec b : insertionPointInv b = true <-> IPInv b.
Proof.
  unfold insertionPointInv, IPInv. rewrite andb_true_iff, openOnlyAt_spec.
  split; intros [H1 H2]; (split; [exact H1|]).
  - intros bb Hbb. rewrite Hbb in H2.
    destruct (blocks (builderF b) !! bb) as [blk|]; [by exists blk | done].
  - destruct (BB b) as [bb|]; [|done].
    destruct (H2 bb eq_refl) as (blk & -> & Hopen). done.
Qed.

Lemma IPInv_invalid_closed b :
  IPInv b -> BB b = None -> openBlocks (builderF b) = 0.
Proof.
  intros [H1 _] Hbb. apply openBlocks_zero. intros n blk Hn.
  destruct (isOpen blk) eqn:Hopen; [|done].
  specialize (H1 n blk Hn Hopen). congruence.
Qed.

Lemma IPInv_insert i b : IPInv b -> IPInv (SILBuilder_insert i b).
Proof.
  intros Hinv. destruct (BB b) as [bb|] eqn:Hbb;
    [|by rewrite SILBuilder_insert_invalid].
  destruct Hinv as [H1 H2].
  rewrite (SILBuilder_insert_at _ _ bb Hbb).
  destruct (H2 bb Hbb) as (cur & Hcur & Hcuropen).
  split; simpl.
  - intros n blk Hn Hopen. destruct (decide (n = bb)) as [->|Hne].
    + rewrite list_lookup_alter_eq, Hcur in Hn. simpl in Hn. simplify_eq.
      rewrite isOpen_app in Hopen. simpl in Hopen.
      destruct (isTerminator i); [|done]. simpl in Hopen.
      by rewrite andb_false_r in Hopen.
    + rewrite list_lookup_alter_ne in Hn by done.
      specialize (H1 n blk Hn Hopen). congruence.
  - intros bb' Hbb'. destruct (isTerminator i) eqn:Hterm; [done|]. simplify_eq.
    exists (cur ++ [i]). rewrite list_lookup_alter_eq, Hcur. split; [done|].
    rewrite isOpen_app, Hcuropen. simpl. by rewrite Hterm.
Qed.

Lemma IPInv_emitCleanups cs b : IPInv b -> IPInv (emitCleanups cs b).
Proof.
  unfold emitCleanups. revert b. induction cs as [|c cs IH]; intros b Hb; simpl; [done|].
  apply IH. by apply IPInv_insert.
Qed.

Lemma IPInv_emitBlock b : IPInv b -> IPInv (emitBlock b).
Proof.
  intros Hinv. unfold emitBlock, BasicBlock_new, createBranch.
  set (new := length (blocks (builderF b))).
  destruct (BB b) as [bb|] eqn:Hbb; destruct Hinv as [H1 H2].
  - destruct (H2 bb Hbb) as (cur & Hcur & Hcuropen).
    assert (bb < new) as Hlt by (by eapply lookup_lt_Some).
    rewrite (SILBuilder_insert_at _ _ bb) by done. simpl. split; simpl.
    + intros n blk Hn Hopen. f_equal.
      destruct (decide (n = bb)) as [->|Hne].
      * rewrite list_lookup_alter_eq, lookup_app_l, Hcur in Hn by done.
        simpl in Hn. simplify_eq. rewrite isOpen_app in Hopen. simpl in Hopen.
        by rewrite andb_false_r in Hopen.
      * rewrite list_lookup_alter_ne in Hn by done.
        destruct (decide (n < new)) as [Hn'|Hn'].
        -- rewrite lookup_app_l in Hn by done.
           specialize (H1 n blk Hn Hopen). congruence.
        -- apply lookup_lt_Some in Hn. rewrite length_app in Hn. simpl in Hn.
           fold new in Hn. lia.
    + intros ? [= <-]. exists []. split; [|done].
      rewrite list_lookup_alter_ne by lia.
      rewrite lookup_app_r by done. by rewrite Nat.sub_diag.
  - rewrite SILBuilder_insert_invalid by done. simpl. split; simpl.
    + intros n blk Hn Hopen. f_equal.
      destruct (decide (n < new)) as [Hn'|Hn'].
      * rewrite lookup_app_l in Hn by done.
        specialize (H1 n blk Hn Hopen). congruence.
      * apply lookup_lt_Some in Hn. rewrite length_app in Hn. simpl in Hn.
        fold new in Hn. lia.
    + intros ? [= <-]. exists []. split; [|done].
      rewrite lookup_app_r by done. by rewrite Nat.sub_diag.
Qed.

Lemma IPInv_runStep sgf st : IPInv (B sgf) -> IPInv (B (runStep sgf st)).
Proof.
  intros Hinv. destruct st; simpl.
  - by apply IPInv_insert.
  - by apply IPInv_emitBlock.
  - done.
  - by apply IPInv_insert, IPInv_emitCleanups.
Qed.

Lemma IPInv_runSteps steps sgf : IPInv (B sgf) -> IPInv (B (runSteps steps sgf)).
Proof.
  unfold runSteps. revert sgf. induction steps as [|st steps IH]; intros sgf Hinv; simpl; [done|].
  by apply IH, IPInv_runStep.
Qed.

Lemma IPInv_new f v : openBlocks f = 0 -> IPInv (B (SILGenFunction_new f v)).
Proof.
  intros Hclosed. rewrite openBlocks_zero in Hclosed.
  unfold SILGenFunction_new, BasicBlock_new. simpl. split; simpl.
  - intros n blk Hn Hopen. f_equal.
    destruct (decide (n < length (blocks f))) as [Hlt|Hge].
    + rewrite lookup_app_l in Hn by done. rewrite (Hclosed n blk Hn) in Hopen. done.
    + apply lookup_lt_Some in Hn. rewrite length_app in Hn. simpl in Hn. lia.
  - intros ? [= <-]. exists []. split; [|done].
    rewrite lookup_app_r by done. by rewrite Nat.sub_diag.
Qed.

(** What a body cannot change. *)

Lemma runSteps_hasVoidReturn steps sgf :
  hasVoidReturn (runSteps steps sgf) = hasVoidReturn sgf.
Proof.
  unfold runSteps. revert sgf. induction steps as [|st steps IH]; intros sgf; simpl; [done|].
  rewrite IH. by destruct st.
Qed.

Lemma runSteps_epilogBB steps sgf :
  epilogBB (runSteps steps sgf) = epilogBB sgf.
Proof.
  unfold runSteps. revert sgf. induction steps as [|st steps IH]; intros sgf; simpl; [done|].
  rewrite IH. by destruct st.
Qed.

(** The stack holds the pushed cleanups, the last pushed first. *)
Lemma runSteps_Cleanups steps sgf :
  Cleanups (runSteps steps sgf) = rev (pushedCleanups steps) ++ Cleanups sgf.
Proof.
  unfold runSteps. revert sgf. induction steps as [|st steps IH]; intros sgf; simpl; [done|].
  rewrite IH. destruct st; simpl; try done.
  unfold pushCleanup. by rewrite <- (assoc_L (++)).
Qed.

(** Blocks are only ever added. *)
Lemma SILBuilder_insert_length i b :
  length (blocks (builderF (SILBuilder_insert i b))) = length (blocks (builderF b)).
Proof.
  destruct (BB b) as [bb|] eqn:Hbb.
  - rewrite (SILBuilder_insert_at _ _ bb Hbb). simpl. apply length_alter.
  - by rewrite SILBuilder_insert_invalid.
Qed.

Lemma emitCleanups_length cs b :
  length (blocks (builderF (emitCleanups cs b))) = length (blocks (builderF b)).
Proof.
  unfold emitCleanups. revert b. induction cs as [|c cs IH]; intros b; simpl; [done|].
  rewrite IH. apply SILBuilder_insert_length.
Qed.

Lemma runStep_length sgf st :
  length (blocks (F sgf)) <= length (blocks (F (runStep sgf st))).
Proof.
  unfold F. destruct st; simpl.
  - by rewrite SILBuilder_insert_length.
  - unfold emitBlock, BasicBlock_new, createBranch. simpl.
    rewrite SILBuilder_insert_length. simpl. rewrite length_app. lia.
  - done.
  - unfold createReturn. by rewrite SILBuilder_insert_length, emitCleanups_length.
Qed.

Lemma runSteps_length steps sgf :
  length (blocks (F sgf)) <= length (blocks (F (runSteps steps sgf))).
Proof.
  unfold runSteps. revert sgf. induction steps as [|st steps IH]; intros sgf; simpl; [done|].
  etrans; [apply (runStep_length sgf st) | apply IH].
Qed.

(** ** The destructor of a context *)

Lemma hasValidInsertionPoint_Some b bb :
  BB b = Some bb -> hasValidInsertionPoint b = true.
Proof. intros Hbb. unfold hasValidInsertionPoint. rewrite Hbb. by apply bool_decide_eq_true_2. Qed.

Lemma hasValidInsertionPoint_None b :
  BB b = None -> hasValidInsertionPoint b = false.
Proof.
  intros Hbb. unfold hasValidInsertionPoint. rewrite Hbb.
  apply bool_decide_eq_false_2. by intros [? ?].
Qed.

Lemma destroy_invalid sgf :
  BB (B sgf) = None -> SILGenFunction_destroy sgf = Ok sgf.
Proof.
  intros Hbb. unfold SILGenFunction_destroy.
  by rewrite hasValidInsertionPoint_None.
Qed.

Lemma destroy_voidable sgf bb :
  BB (B sgf) = Some bb -> hasVoidReturn sgf = true -> epilogBB sgf = None ->
  SILGenFunction_destroy sgf = Ok (epilogue sgf).
Proof.
  intros Hbb Hvoid Hepi. unfold SILGenFunction_destroy, epilogue, epilogueInsts.
  rewrite (hasValidInsertionPoint_Some _ bb), Hvoid, Hepi, Hbb by done. simpl.
  unfold emitReturnAndCleanups, createEmptyTuple, createReturn, withBuilder. simpl.
  rewrite (SILBuilder_insert_at (TupleInst []) _ bb Hbb). simpl.
  rewrite (emitCleanups_at _ _ bb) by done. simpl.
  rewrite (SILBuilder_insert_at _ _ bb) by done. simpl.
  rewrite !appendInsts_appendInsts. simpl. by rewrite Hvoid, Hepi.
Qed.

Lemma destroy_voidable_fault sgf bb e :
  BB (B sgf) = Some bb -> hasVoidReturn sgf = true -> epilogBB sgf = Some e ->
  SILGenFunction_destroy sgf = Fault "epilog bb not terminated?!".
Proof.
  intros Hbb Hvoid Hepi. unfold SILGenFunction_destroy.
  by rewrite (hasValidInsertionPoint_Some _ bb), Hvoid, Hepi.
Qed.

Lemma destroy_nonvoidable sgf bb :
  BB (B sgf) = Some bb -> hasVoidReturn sgf = false ->
  SILGenFunction_destroy sgf = Ok (epilogue sgf).
Proof.
  intros Hbb Hvoid. unfold SILGenFunction_destroy, epilogue, epilogueInsts.
  rewrite (hasValidInsertionPoint_Some _ bb), Hvoid, Hbb by done. simpl.
  unfold createUnreachable. by rewrite (SILBuilder_insert_at _ _ bb).
Qed.

Lemma destroy_epilogue sgf :
  epilogBB sgf = None -> SILGenFunction_destroy sgf = Ok (epilogue sgf).
Proof.
  intros Hepi. destruct (BB (B sgf)) as [bb|] eqn:Hbb.
  - destruct (hasVoidReturn sgf) eqn:Hvoid.
    + by apply (destroy_voidable _ bb).
    + by apply (destroy_nonvoidable _ bb).
  - unfold epilogue. rewrite Hbb. by apply destroy_invalid.
Qed.

(** The destructor aborts only on the assertion of its voidable branch. *)
Lemma destroy_fault sgf msg :
  SILGenFunction_destroy sgf = Fault msg ->
  msg = "epilog bb not terminated?!"
  /\ hasVoidReturn sgf = true /\ is_Some (BB (B sgf)) /\ is_Some (epilogBB sgf).
Proof.
  intros Hd. destruct (BB (B sgf)) as [bb|] eqn:Hbb.
  - destruct (hasVoidReturn sgf) eqn:Hvoid.
    + destruct (epilogBB sgf) as [e|] eqn:Hepi.
      * rewrite (destroy_voidable_fault _ bb e) in Hd by done. by simplify_eq.
      * by rewrite (destroy_voidable _ bb) in Hd.
    + by rewrite (destroy_nonvoidable _ bb) in Hd.
  - by rewrite destroy_invalid in Hd.
Qed.

Lemma epilogue_BB sgf : BB (B (epilogue sgf)) = None.
Proof. unfold epilogue. by destruct (BB (B sgf)) eqn:Hbb. Qed.

Lemma epilogue_length sgf :
  length (blocks (F (epilogue sgf))) = length (blocks (F sgf)).
Proof.
  unfold epilogue. destruct (BB (B sgf)); [|done]. unfold F; simpl. apply length_alter.
Qed.

Lemma isOpen_epilogueInsts sgf : isOpen (epilogueInsts sgf) = false.
Proof.
  unfold epilogueInsts. destruct (hasVoidReturn sgf); [|done].
  change (TupleInst [] :: ?l) with ([TupleInst []] ++ l).
  rewrite !isOpen_app. simpl. by rewrite andb_false_r.
Qed.

Lemma terminators_epilogueInsts sgf : terminators (epilogueInsts sgf) = 1.
Proof.
  unfold epilogueInsts. destruct (hasVoidReturn sgf); [|done].
  change (TupleInst [] :: ?l) with ([TupleInst []] ++ l).
  rewrite !terminators_app, terminators_cleanups. done.
Qed.

Lemma epilogue_closed sgf : IPInv (B sgf) -> openBlocks (F (epilogue sgf)) = 0.
Proof.
  intros Hinv. destruct (BB (B sgf)) as [bb|] eqn:Hbb.
  - apply openBlocks_zero. intros n blk Hn. unfold epilogue in Hn. rewrite Hbb in Hn.
    unfold F in Hn. simpl in Hn. destruct Hinv as [H1 _].
    destruct (decide (n = bb)) as [->|Hne].
    + rewrite list_lookup_alter_eq in Hn.
      destruct (blocks (builderF (B sgf)) !! bb) as [cur|]; [|done].
      simpl in Hn. simplify_eq.
      by rewrite isOpen_app, isOpen_epilogueInsts, andb_false_r.
    + rewrite list_lookup_alter_ne in Hn by done.
      destruct (isOpen blk) eqn:Hopen; [|done].
      specialize (H1 n blk Hn Hopen). congruence.
  - unfold epilogue. rewrite Hbb. by apply IPInv_invalid_closed.
Qed.

Lemma lowerBody_epilogue f v steps :
  lowerBody f v steps = Ok (epilogue (runSteps steps (SILGenFunction_new f v))).
Proof. unfold lowerBody. apply destroy_epilogue. by rewrite runSteps_epilogBB. Qed.

Lemma loweredFunction_epilogue f v steps :
  loweredFunction f v steps = F (epilogue (runSteps steps (SILGenFunction_new f v))).
Proof. unfold loweredFunction. by rewrite lowerBody_epilogue. Qed.

Lemma loweredFunction_closed f v steps :
  openBlocks f = 0 -> openBlocks (loweredFunction f v steps) = 0.
Proof.
  intros Hf. rewrite loweredFunction_epilogue.
  by apply epilogue_closed, IPInv_runSteps, IPInv_new.
Qed.

Lemma loweredFunction_nonempty f v steps :
  1 <= length (blocks (loweredFunction f v steps)).
Proof.
  rewrite loweredFunction_epilogue, epilogue_length.
  etrans; [|apply runSteps_length].
  unfold SILGenFunction_new, F. simpl. rewrite length_app. simpl. lia.
Qed.

(** ** The module-level state *)

Lemma hasFunction_false m c : hasFunction m c = false <-> functions m !! c = None.
Proof.
  unfold hasFunction. rewrite bool_decide_eq_false, <- eq_None_not_Some. done.
Qed.

Lemma hasFunction_true m c : hasFunction m c = true <-> is_Some (functions m !! c).
Proof. unfold hasFunction. by rewrite bool_decide_eq_true. Qed.

Lemma M_logged ds s : M (logged ds s) = M s.
Proof. unfold logged, dump. simpl. by destruct (Verbose s). Qed.

Lemma TopLevelSGF_logged ds s : TopLevelSGF (logged ds s) = TopLevelSGF s.
Proof. unfold logged, dump. simpl. by destruct (Verbose s). Qed.

Lemma Verbose_logged ds s : Verbose (logged ds s) = Verbose s.
Proof. unfold logged, dump. simpl. by destruct (Verbose s) eqn:Hv. Qed.

Lemma errs_logged ds s :
  errs (logged ds s) = if Verbose s then errs s ++ ds else errs s.
Proof. unfold logged, dump. simpl. by destruct (Verbose s). Qed.

Lemma functions_stored c f s :
  functions (M (stored c f s)) = <[c := f]> (functions (M s)).
Proof. done. Qed.

Lemma frameOf_logged ds s : frameOf (logged ds s) = frameOf s.
Proof. unfold frameOf. by rewrite M_logged, TopLevelSGF_logged, Verbose_logged. Qed.

Lemma frameOf_stored c f s : frameOf (stored c f s) = frameOf s.
Proof. done. Qed.

Lemma bind_run {A R} (m : Gen A) (k : A -> Gen R) s :
  bind m k s =
  match m s with
  | (Ok a, s') => k a s'
  | (Fault msg, s') => (Fault msg, s')
  end.
Proof. done. Qed.


Lemma withSILGenFunction_run f v steps s :
  withSILGenFunction f v steps s = (Ok (loweredFunction f v steps), s).
Proof.
  unfold withSILGenFunction, loweredFunction. by rewrite lowerBody_epilogue.
Qed.

Section Emission.
Context `{Ext : External}.

Lemma preEmitFunction_run c n s :
  preEmitFunction c n s =
  if hasFunction (M s) c
  then (Fault "already generated function for constant!", s)
  else (Ok (Function_new (getConstantType c)), logged (preDumps c n) s).
Proof.
  unfold preEmitFunction, bind, getModule, assert, ret. simpl.
  by destruct (hasFunction (M s) c).
Qed.

Lemma postEmitFunction_run c f s :
  postEmitFunction c f s =
  if verify f
  then (Ok tt, stored c f (logged [DumpFunction f] s))
  else (Fault "verify", logged [DumpFunction f] s).
Proof.
  unfold postEmitFunction, bind, assert. simpl.
  by destruct (verify f).
Qed.

End Emission.

(** Symbolic execution of a run: binds are stepped through, the two
    primitives are replaced by their outcome, and the tests on the table
    and on the verifier are split. *)
Ltac gen_run :=
  repeat first
    [ rewrite bind_run
    | rewrite preEmitFunction_run
    | rewrite withSILGenFunction_run
    | rewrite postEmitFunction_run
    | match goal with
      | |- context [if hasFunction ?m ?c then _ else _] =>
          destruct (hasFunction m c) eqn:?
      | |- context [if verify ?f then _ else _] =>
          destruct (verify f) eqn:?
      end
    | progress simpl ].

Section Policies.
Context `{Ext : External}.

Lemma emitOne_run c n v steps s :
  emitOne c n v steps s =
  if hasFunction (M s) c
  then (Fault "already generated function for constant!", s)
  else
    let f := emittedFunction c v steps in
    if verify f
    then (Ok f, emitted c n v steps s)
    else (Fault "verify", logged [DumpFunction f] (logged (preDumps c n) s)).
Proof.
  unfold emitOne, emitted, emittedFunction. by gen_run.
Qed.

(** The emission policies as sequences of single emissions. *)

Lemma emitClosure_emitOne ce s :
  emitClosure ce s =
  emitOne (SILConstant_of (CapturingExprLoc (ce_id ce))) (Some (ce_id ce)) false
    (SILGenFunction_emitClosure ce) s.
Proof. done. Qed.

Lemma emitDestructor_emitOne cd dd s :
  emitDestructor cd dd s =
  emitOne (mkSILConstant (ValueDeclLoc (class_id cd)) Destructor) (dtor_id <$> dd) true
    (SILGenFunction_emitDestructor cd dd) s.
Proof. done. Qed.

Lemma emitFunction_emitOne decl fe s :
  SILGenModule_emitFunction decl fe s =
  match fe_body fe with
  | None => (Ok None, s)
  | Some _ =>
      (f <- emitOne (SILConstant_of decl) (Some (fe_id fe))
              (isVoidableType (fe_resultType fe)) (SILGenFunction_emitFunction fe) ;;
       ret (Some f)) s
  end.
Proof.
  unfold SILGenModule_emitFunction. destruct (fe_body fe) as [body|]; [|done].
  rewrite bool_decide_eq_false_2 by done.
  unfold emitOne. by gen_run.
Qed.

Lemma emitConstructor_emitOne decl s :
  emitConstructor decl s =
  match ctor_body decl with
  | None => (Ok None, s)
  | Some _ =>
      let loc := ValueDeclLoc (ctor_id decl) in
      if ctor_thisHasReferenceSemantics decl then
        (f <- emitOne (SILConstant_of loc) (Some (ctor_id decl)) true
                (SILGenFunction_emitClassConstructorAllocator decl) ;;
         emitOne (mkSILConstant loc Initializer) (Some (ctor_id decl)) true
           (SILGenFunction_emitClassConstructorInitializer decl) ;;;
         ret (Some f)) s
      else
        (f <- emitOne (SILConstant_of loc) (Some (ctor_id decl)) true
                (SILGenFunction_emitValueConstructor decl) ;;
         ret (Some f)) s
  end.
Proof.
  unfold emitConstructor. destruct (ctor_body decl) as [body|]; [|done].
  rewrite bool_decide_eq_false_2 by done.
  unfold emitOne. destruct (ctor_thisHasReferenceSemantics decl); by gen_run.
Qed.

End Policies.

(** ** What every run keeps *)

Lemma preserves_ret {A} P (a : A) : preserves P (ret a).
Proof. by intros s HP. Qed.

Lemma preserves_bind {A R} P (m : Gen A) (k : A -> Gen R) :
  preserves P m -> (forall a, preserves P (k a)) -> preserves P (bind m k).
Proof.
  intros Hm Hk s HP. rewrite bind_run. specialize (Hm s HP).
  destruct (m s) as [[a|msg] s']; simpl in *; [by apply Hk | done].
Qed.

Lemma preserves_assert P cond msg : preserves P (assert cond msg).
Proof. intros s HP. unfold assert. by destruct cond. Qed.

Lemma Stable_frame x : Stable (fun s => frameOf s = x).
Proof.
  split.
  - intros ds s Hs. by rewrite frameOf_logged.
  - intros c f s Hs _ _. by rewrite frameOf_stored.
Qed.

Lemma Stable_table (T : gmap SILConstant Function -> Prop) :
  (forall c f t, T t -> t !! c = None -> wellTerminated f -> T (<[c := f]> t)) ->
  Stable (fun s => T (functions (M s))).
Proof.
  intros HT. split.
  - intros ds s Hs. by rewrite M_logged.
  - intros c f s Hs Hc Hf. rewrite functions_stored. by apply HT.
Qed.

Section Preservation.
Context `{Ext : External}.

Lemma emittedFunction_wellTerminated c v steps :
  wellTerminated (emittedFunction c v steps).
Proof.
  split.
  - by apply loweredFunction_closed.
  - apply loweredFunction_nonempty.
Qed.

Lemma emitOne_preserves P c n v steps :
  Stable P -> preserves P (emitOne c n v steps).
Proof.
  intros [Hlog Hstore] s HP. rewrite emitOne_run.
  destruct (hasFunction (M s) c) eqn:Hc; [done|]. simpl.
  destruct (verify _); simpl.
  - unfold emitted. apply Hstore.
    + by apply Hlog, Hlog.
    + rewrite !M_logged. by apply hasFunction_false.
    + apply emittedFunction_wellTerminated.
  - by apply Hlog, Hlog.
Qed.

Lemma emitFunction_preserves P decl fe :
  Stable P -> preserves P (SILGenModule_emitFunction decl fe).
Proof.
  intros HS s HP. rewrite emitFunction_emitOne.
  destruct (fe_body fe); [|done].
  revert s HP. apply preserves_bind; [by apply emitOne_preserves|].
  intros f. apply preserves_ret.
Qed.

Lemma visitFuncDecl_preserves P fd :
  Stable P -> preserves P (visitFuncDecl fd).
Proof.
  intros HS. apply preserves_bind; [by apply emitFunction_preserves|].
  intros _. apply preserves_ret.
Qed.

Lemma emitConstructor_preserves P decl :
  Stable P -> preserves P (emitConstructor decl).
Proof.
  intros HS s HP. rewrite emitConstructor_emitOne.
  destruct (ctor_body decl); [|done]. simpl.
  destruct (ctor_thisHasReferenceSemantics decl); revert s HP.
  - apply preserves_bind; [by apply emitOne_preserves|]. intros f.
    apply preserves_bind; [by apply emitOne_preserves|]. intros _.
    apply preserves_ret.
  - apply preserves_bind; [by apply emitOne_preserves|]. intros f.
    apply preserves_ret.
Qed.

Lemma emitClosure_preserves P ce :
  Stable P -> preserves P (emitClosure ce).
Proof. intros HS s HP. rewrite emitClosure_emitOne. by apply emitOne_preserves. Qed.

Lemma emitDestructor_preserves P cd dd :
  Stable P -> preserves P (emitDestructor cd dd).
Proof. intros HS s HP. rewrite emitDestructor_emitOne. by apply emitOne_preserves. Qed.

Lemma SILGenType_destroy_preserves P sgt :
  Stable P -> preserves P (SILGenType_destroy sgt).
Proof.
  intros HS. unfold SILGenType_destroy.
  destruct (dyn_cast_ClassDecl (theType sgt)).
  - apply preserves_bind; [by apply emitDestructor_preserves|].
    intros _. apply preserves_ret.
  - apply preserves_assert.
Qed.

Lemma SILGenType_visit_preserves P sgt m :
  Stable P -> preserves P (SILGenType_visit sgt m).
Proof.
  intros HS. destruct m; simpl.
  - apply preserves_bind; [by apply visitFuncDecl_preserves|].
    intros _. apply preserves_ret.
  - apply preserves_bind; [by apply emitConstructor_preserves|].
    intros _. apply preserves_ret.
  - apply preserves_ret.
  - apply preserves_ret.
Qed.

Lemma SILGenType_visitAll_preserves P sgt ms :
  Stable P -> preserves P (SILGenType_visitAll sgt ms).
Proof.
  intros HS. revert sgt. induction ms as [|m ms IH]; intros sgt; simpl.
  - apply preserves_ret.
  - apply preserves_bind; [by apply SILGenType_visit_preserves | apply IH].
Qed.

Lemma visitNominalTypeDecl_preserves P ntd ms :
  Stable P -> preserves P (visitNominalTypeDecl ntd ms).
Proof.
  intros HS. apply preserves_bind; [by apply SILGenType_visitAll_preserves|].
  intros sgt. by apply SILGenType_destroy_preserves.
Qed.

(** Properties of the function table alone are kept by the whole pass. *)

Lemma visit_preserves_table (T : gmap SILConstant Function -> Prop) d :
  (forall c f t, T t -> t !! c = None -> wellTerminated f -> T (<[c := f]> t)) ->
  preserves (fun s => T (functions (M s))) (visit d).
Proof.
  intros HT. pose proof (Stable_table T HT) as HS. destruct d; simpl.
  - by apply visitFuncDecl_preserves.
  - apply preserves_ret.
  - by apply visitNominalTypeDecl_preserves.
  - intros s Hs. unfold visitTopLevelCodeDecl. simpl. by destruct (TopLevelSGF s).
Qed.

Lemma visitAll_preserves_table (T : gmap SILConstant Function -> Prop) ds :
  (forall c f t, T t -> t !! c = None -> wellTerminated f -> T (<[c := f]> t)) ->
  preserves (fun s => T (functions (M s))) (visitAll ds).
Proof.
  intros HT. induction ds as [|d ds IH]; simpl.
  - apply preserves_ret.
  - apply preserves_bind; [by apply visit_preserves_table | by intros _].
Qed.

Lemma SILGenModule_destroy_functions s :
  functions (M (SILGenModule_destroy s).2) = functions (M s).
Proof.
  unfold SILGenModule_destroy. destruct (TopLevelSGF s) as [sgf|]; [|done].
  by destruct (SILGenFunction_destroy sgf).
Qed.

Lemma constructSIL_run_table (T : gmap SILConstant Function -> Prop) tu verbose :
  (forall c f t, T t -> t !! c = None -> wellTerminated f -> T (<[c := f]> t)) ->
  T ∅ ->
  T (functions (M (constructSIL_run tu verbose).2)).
Proof.
  intros HT Hempty. unfold constructSIL_run.
  set (s0 := SILGenModule_new _ _).
  assert (T (functions (M s0))) as Hs0 by done.
  pose proof (visitAll_preserves_table T (Decls tu) HT s0 Hs0) as Hvisit.
  rewrite bind_run. destruct (visitAll (Decls tu) s0) as [[[]|msg] s1]; simpl in *.
  - by rewrite SILGenModule_destroy_functions.
  - done.
Qed.

(** Every function in the table of the module under construction is
    well terminated. *)
Lemma constructSIL_run_wellTerminated tu verbose c f :
  functions (M (constructSIL_run tu verbose).2) !! c = Some f -> wellTerminated f.
Proof.
  revert c f.
  apply (constructSIL_run_table (map_Forall (fun _ f => wellTerminated f))).
  - intros c f t Ht _ Hf. by apply map_Forall_insert_2.
  - apply map_Forall_empty.
Qed.

(** The table only grows: what is recorded under a key stays. *)
Lemma visitAll_grows ds s :
  functions (M s) ⊆ functions (M (visitAll ds s).2).
Proof.
  apply (visitAll_preserves_table (fun t => functions (M s) ⊆ t)); [|done].
  intros c f t Ht Hc _. etrans; [exact Ht | by apply insert_subseteq].
Qed.

Lemma grows_Stable (t0 : gmap SILConstant Function) :
  Stable (fun s => t0 ⊆ functions (M s)).
Proof.
  apply (Stable_table (fun t => t0 ⊆ t)).
  intros c f t Ht Hc _. etrans; [exact Ht | by apply insert_subseteq].
Qed.

End Preservation.

(** ** The top-level context *)

Lemma runSteps_app xs ys sgf :
  runSteps (xs ++ ys) sgf = runSteps ys (runSteps xs sgf).
Proof. apply foldl_app. Qed.

Section TopLevel.
Context `{Ext : External}.

Lemma visitTopLevelCodeDecl_run td s :
  visitTopLevelCodeDecl td s =
  (Ok tt, mapTopLevelSGF (runSteps (SILGenFunction_visitTopLevelCode td)) s).
Proof.
  unfold visitTopLevelCodeDecl, mapTopLevelSGF. f_equal.
  destruct s as [m [sgf|] v e]; done.
Qed.

(** A property kept by the emissions and by the lowering of top-level
    code is kept by the visit of every declaration. *)
Lemma visit_preserves P d :
  Stable P -> (forall g s, P s -> P (mapTopLevelSGF g s)) -> preserves P (visit d).
Proof.
  intros HS Hmap. destruct d; simpl.
  - by apply visitFuncDecl_preserves.
  - apply preserves_ret.
  - by apply visitNominalTypeDecl_preserves.
  - intros s Hs. rewrite visitTopLevelCodeDecl_run. by apply Hmap.
Qed.

Lemma visitAll_preserves P ds :
  Stable P -> (forall g s, P s -> P (mapTopLevelSGF g s)) -> preserves P (visitAll ds).
Proof.
  intros HS Hmap. induction ds as [|d ds IH]; simpl.
  - apply preserves_ret.
  - apply preserves_bind; [by apply visit_preserves | by intros _].
Qed.

Lemma visitAll_toplevel ds s :
  toplevel (M (visitAll ds s).2) = toplevel (M s).
Proof.
  apply (visitAll_preserves (fun s' => toplevel (M s') = toplevel (M s))); [| done..].
  split.
  - intros ds' s' Hs'. by rewrite M_logged.
  - by intros c f s' Hs' _ _.
Qed.

Lemma visitAll_TopLevelSGF_is_Some ds s :
  is_Some (TopLevelSGF (visitAll ds s).2) <-> is_Some (TopLevelSGF s).
Proof.
  apply (visitAll_preserves
           (fun s' => is_Some (TopLevelSGF s') <-> is_Some (TopLevelSGF s))); [| | done].
  - split.
    + intros ds' s' Hs'. by rewrite TopLevelSGF_logged.
    + by intros c f s' Hs' _ _.
  - intros g s' Hs'. simpl. by rewrite fmap_is_Some.
Qed.

(** On a run that does not abort, the top-level context went through
    the top-level code of the declarations, in order. *)
Lemma visit_frame d s :
  match d with TopLevelCodeDeclD _ => False | _ => True end ->
  frameOf (visit d s).2 = frameOf s.
Proof.
  intros Hd. destruct d; simpl; [| done | | done].
  - by apply (visitFuncDecl_preserves (fun s' => frameOf s' = frameOf s)), eq_refl;
      apply Stable_frame.
  - by apply (visitNominalTypeDecl_preserves (fun s' => frameOf s' = frameOf s)), eq_refl;
      apply Stable_frame.
Qed.

Lemma frameOf_TopLevelSGF s1 s2 :
  frameOf s1 = frameOf s2 -> TopLevelSGF s1 = TopLevelSGF s2.
Proof. unfold frameOf. congruence. Qed.

Lemma visit_TopLevelSGF d s :
  TopLevelSGF (visit d s).2 = runSteps (topLevelSteps [d]) <$> TopLevelSGF s.
Proof.
  unfold topLevelSteps. simpl. rewrite app_nil_r.
  destruct d as [fd|pd|ntd ms|td].
  - rewrite (frameOf_TopLevelSGF _ _ (visit_frame (FuncDeclD fd) s I)).
    by destruct (TopLevelSGF s).
  - simpl. by destruct (TopLevelSGF s).
  - rewrite (frameOf_TopLevelSGF _ _ (visit_frame (NominalTypeDeclD ntd ms) s I)).
    by destruct (TopLevelSGF s).
  - change (visit (TopLevelCodeDeclD td) s) with (visitTopLevelCodeDecl td s).
    by rewrite visitTopLevelCodeDecl_run.
Qed.

Lemma topLevelSteps_cons d ds :
  topLevelSteps (d :: ds) = topLevelSteps [d] ++ topLevelSteps ds.
Proof. unfold topLevelSteps. simpl. by rewrite app_nil_r. Qed.

Lemma visitAll_TopLevelSGF ds s s' :
  visitAll ds s = (Ok tt, s') ->
  TopLevelSGF s' = runSteps (topLevelSteps ds) <$> TopLevelSGF s.
Proof.
  revert s. induction ds as [|d ds IH]; intros s Hrun; simpl in Hrun.
  - unfold ret in Hrun. simplify_eq. by destruct (TopLevelSGF s').
  - rewrite bind_run in Hrun. pose proof (visit_TopLevelSGF d s) as Hd.
    destruct (visit d s) as [[[]|msg] s1]; [|done]. simpl in Hd.
    rewrite (IH s1 Hrun), Hd.
    rewrite (topLevelSteps_cons d ds).
    destruct (TopLevelSGF s); simpl; [|done].
    by rewrite runSteps_app.
Qed.

Lemma SILGenModule_new_TopLevelSGF m verbose :
  TopLevelSGF (SILGenModule_new m verbose)
  = (fun tl => SILGenFunction_new tl true) <$> toplevel m.
Proof. unfold SILGenModule_new. simpl. by destruct (toplevel m). Qed.

(** The top-level function of the module [constructSIL] hands back. *)
Lemma constructSIL_run_toplevel tu verbose s :
  constructSIL_run tu verbose = (Ok tt, s) ->
  toplevel (M s) =
  if constructSIL_hasTopLevel (Kind tu)
  then Some (loweredFunction (Function_new toplevelType) true (topLevelSteps (Decls tu)))
  else None.
Proof.
  unfold constructSIL_run. rewrite bind_run.
  set (s0 := SILGenModule_new _ _).
  pose proof (visitAll_toplevel (Decls tu) s0) as Htl.
  pose proof (visitAll_TopLevelSGF (Decls tu) s0) as Hsgf.
  destruct (visitAll (Decls tu) s0) as [[[]|msg] s1]; [|done].
  specialize (Hsgf s1 eq_refl). simpl in Htl.
  unfold s0 in Hsgf, Htl. rewrite SILGenModule_new_TopLevelSGF in Hsgf.
  unfold SILGenModule_new, SILModule_new in Hsgf, Htl. simpl in Hsgf, Htl.
  unfold SILGenModule_destroy. rewrite Hsgf.
  destruct (constructSIL_hasTopLevel (Kind tu)); simpl.
  - rewrite destroy_epilogue by (by rewrite runSteps_epilogBB).
    intros ?; simplify_eq. simpl. by rewrite loweredFunction_epilogue.
  - intros ?; simplify_eq. done.
Qed.

(** Whatever the outcome, the module has a top-level function exactly
    when it was created with one. *)
Lemma constructSIL_run_has_toplevel tu verbose :
  is_Some (toplevel (M (constructSIL_run tu verbose).2))
  <-> constructSIL_hasTopLevel (Kind tu) = true.
Proof.
  unfold constructSIL_run. rewrite bind_run.
  set (s0 := SILGenModule_new _ _).
  pose proof (visitAll_toplevel (Decls tu) s0) as Htl.
  pose proof (visitAll_TopLevelSGF_is_Some (Decls tu) s0) as Hsgf.
  assert (is_Some (toplevel (M s0)) <-> constructSIL_hasTopLevel (Kind tu) = true) as H0.
  { unfold s0, SILGenModule_new, SILModule_new. simpl.
    destruct (constructSIL_hasTopLevel (Kind tu)); simpl; [by split; eauto|].
    split; [by intros [? ?] | done]. }
  assert (is_Some (TopLevelSGF s0) <-> constructSIL_hasTopLevel (Kind tu) = true) as H1.
  { unfold s0. rewrite SILGenModule_new_TopLevelSGF, fmap_is_Some. exact H0. }
  destruct (visitAll (Decls tu) s0) as [[[]|msg] s1]; simpl in *.
  - unfold SILGenModule_destroy.
    destruct (TopLevelSGF s1) as [sgf|] eqn:Hs1.
    + destruct (SILGenFunction_destroy sgf); simpl.
      * split; [|by eauto]. intros _. apply H1, Hsgf. by eauto.
      * by rewrite Htl.
    + simpl. by rewrite Htl.
  - by rewrite Htl.
Qed.

End TopLevel.

(** ** The epilogue, block by block *)

Lemma nextValue_at b bb blk :
  BB b = Some bb -> blocks (builderF b) !! bb = Some blk ->
  nextValue b = InstValue bb (length blk).
Proof. intros Hbb Hblk. unfold nextValue. by rewrite Hbb, Hblk. Qed.

Lemma epilogue_block sgf bb blk :
  BB (B sgf) = Some bb -> blocks (F sgf) !! bb = Some blk ->
  blocks (F (epilogue sgf)) !! bb = Some (blk ++ epilogueInsts sgf)
  /\ (forall n, n <> bb -> blocks (F (epilogue sgf)) !! n = blocks (F sgf) !! n).
Proof.
  intros Hbb Hblk. unfold epilogue. rewrite Hbb. unfold F in *. simpl. split.
  - by rewrite list_lookup_alter_eq, Hblk.
  - intros n Hne. by rewrite list_lookup_alter_ne.
Qed.

Lemma epilogueInsts_voidable sgf bb blk :
  hasVoidReturn sgf = true ->
  BB (B sgf) = Some bb -> blocks (F sgf) !! bb = Some blk ->
  epilogueInsts sgf =
  [TupleInst []] ++ map CleanupInst (Cleanups sgf) ++ [ReturnInst (InstValue bb (length blk))].
Proof.
  intros Hvoid Hbb Hblk. unfold epilogueInsts.
  by rewrite Hvoid, (nextValue_at _ bb blk).
Qed.

(** C1: once the destructor of a function lowering context has run, the
    function has no open block.  Without insertion point the destructor
    changes nothing; with one, the insertion block, which had no
    terminator, has exactly one afterwards and no other block changes.
    The destructor aborts only on its own assertion.  Every function in
    the table of the module under construction, and the top-level function
    of a finished module, has no open block. *)
Theorem C1_epilogue_closes_every_block :
  (forall sgf : SILGenFunction,
      insertionPointInv (B sgf) = true ->
      match SILGenFunction_destroy sgf with
      | Ok sgf' =>
          openBlocks (F sgf') = 0
          /\ match BB (B sgf) with
             | None => sgf' = sgf
             | Some bb =>
                 BB (B sgf') = None
                 /\ (exists blk blk',
                        blocks (F sgf) !! bb = Some blk /\ terminators blk = 0
                        /\ blocks (F sgf') !! bb = Some blk' /\ terminators blk' = 1)
                 /\ (forall n, n <> bb -> blocks (F sgf') !! n = blocks (F sgf) !! n)
             end
      | Fault _ =>
          hasVoidReturn sgf = true /\ is_Some (BB (B sgf)) /\ is_Some (epilogBB sgf)
      end)
  /\ (forall (E : External) tu verbose c f,
        functions (M (constructSIL_run tu verbose).2) !! c = Some f -> openBlocks f = 0)
  /\ (forall (E : External) tu verbose m f,
        constructSIL tu verbose = Ok m -> toplevel m = Some f -> openBlocks f = 0).
Proof.
  split; [|split].
  - intros sgf Hinv. apply insertionPointInv_spec in Hinv.
    destruct (SILGenFunction_destroy sgf) as [sgf'|msg] eqn:Hd.
    2:{ apply destroy_fault in Hd. tauto. }
    assert (sgf' = epilogue sgf) as ->.
    { destruct (BB (B sgf)) as [bb|] eqn:Hbb.
      - destruct (hasVoidReturn sgf) eqn:Hvoid.
        + destruct (epilogBB sgf) as [e|] eqn:Hepi.
          * by rewrite (destroy_voidable_fault _ bb e) in Hd.
          * rewrite (destroy_voidable _ bb) in Hd by done. by simplify_eq.
        + rewrite (destroy_nonvoidable _ bb) in Hd by done. by simplify_eq.
      - rewrite destroy_invalid in Hd by done. simplify_eq.
        unfold epilogue. by rewrite Hbb. }
    split; [by apply epilogue_closed|].
    destruct (BB (B sgf)) as [bb|] eqn:Hbb.
    + destruct Hinv as [_ H2]. destruct (H2 bb Hbb) as (blk & Hblk & Hopen).
      destruct (epilogue_block sgf bb blk Hbb Hblk) as [Hat Hne].
      split; [apply epilogue_BB|]. split; [|exact Hne].
      exists blk, (blk ++ epilogueInsts sgf). split; [done|].
      apply isOpen_terminators in Hopen. split; [done|]. split; [done|].
      rewrite terminators_app, Hopen, terminators_epilogueInsts. done.
    + unfold epilogue. by rewrite Hbb.
  - intros E tu verbose c f Hf.
    by destruct (constructSIL_run_wellTerminated tu verbose c f Hf).
  - intros E tu verbose m f Hrun Htl. unfold constructSIL in Hrun.
    destruct (constructSIL_run tu verbose) as [[[]|msg] s] eqn:Hs; [|done].
    simplify_eq. rewrite (constructSIL_run_toplevel tu verbose s Hs) in Htl.
    destruct (constructSIL_hasTopLevel (Kind tu)); [|done]. simplify_eq.
    by apply loweredFunction_closed.
Qed.

Lemma C1_epilogue_closes_every_block_witness :
  insertionPointInv (B (demoContext true)) = true
  /\ match SILGenFunction_destroy (demoContext true) with
     | Ok sgf' =>
         openBlocks (F sgf') = 0
         /\ match BB (B (demoContext true)) with
            | None => sgf' = demoContext true
            | Some bb =>
                BB (B sgf') = None
                /\ (exists blk blk',
                       blocks (F (demoContext true)) !! bb = Some blk /\ terminators blk = 0
                       /\ blocks (F sgf') !! bb = Some blk' /\ terminators blk' = 1)
                /\ (forall n, n <> bb ->
                      blocks (F sgf') !! n = blocks (F (demoContext true)) !! n)
            end
     | Fault _ =>
         hasVoidReturn (demoContext true) = true
         /\ is_Some (BB (B (demoContext true))) /\ is_Some (epilogBB (demoContext true))
     end.
Proof.
  split; [reflexivity|].
  apply (proj1 C1_epilogue_closes_every_block (demoContext true)). reflexivity.
Defined.

(** ** Single emissions *)

Section SingleEmission.
Context `{Ext : External}.

Lemma functions_emitted c n v steps s :
  functions (M (emitted c n v steps s)) = <[c := emittedFunction c v steps]> (functions (M s)).
Proof. unfold emitted. cbv zeta. by rewrite functions_stored, !M_logged. Qed.

Lemma frameOf_emitted c n v steps s : frameOf (emitted c n v steps s) = frameOf s.
Proof. unfold emitted. cbv zeta. by rewrite frameOf_stored, !frameOf_logged. Qed.

Lemma Verbose_emitted c n v steps s : Verbose (emitted c n v steps s) = Verbose s.
Proof. pose proof (frameOf_emitted c n v steps s) as Hf. unfold frameOf in Hf. congruence. Qed.

Lemma errs_emitted c n v steps s :
  Verbose s = true ->
  errs (emitted c n v steps s)
  = errs s ++ preDumps c n ++ [DumpFunction (emittedFunction c v steps)].
Proof.
  intros Hv. unfold emitted, stored. simpl.
  rewrite !errs_logged, Verbose_logged, Hv. by rewrite <- (assoc_L (++)).
Qed.

Lemma emitOne_ok c n v steps s :
  functions (M s) !! c = None ->
  verify (emittedFunction c v steps) = true ->
  emitOne c n v steps s = (Ok (emittedFunction c v steps), emitted c n v steps s).
Proof.
  intros Hc Hv. rewrite emitOne_run.
  apply hasFunction_false in Hc. rewrite Hc. simpl. by rewrite Hv.
Qed.

Lemma emitOne_duplicate c n v steps s :
  is_Some (functions (M s) !! c) ->
  emitOne c n v steps s = (Fault "already generated function for constant!", s).
Proof.
  intros Hc. rewrite emitOne_run. apply hasFunction_true in Hc. by rewrite Hc.
Qed.

Lemma newKeys_emitted c n v steps s :
  functions (M s) !! c = None -> newKeys s (emitted c n v steps s) = {[ c ]}.
Proof.
  intros Hc. unfold newKeys. rewrite functions_emitted, dom_insert_L.
  apply not_elem_of_dom in Hc. apply set_eq. intros x.
  rewrite elem_of_difference, elem_of_union, !elem_of_singleton.
  split; [by intros [[->|?] ?] | intros ->; by split; [left|]].
Qed.

End SingleEmission.

(** ** Falling off the end of a body *)

Lemma isVoidableType_spec (t : ASTType) :
  isVoidableType t = true <-> t = TheEmptyTupleType.
Proof.
  unfold isVoidableType, TheEmptyTupleType.
  destruct t as [[|x xs]| |]; simpl; split; intros Ht; try done.
Qed.

Lemma definingInst_fresh f bb blk :
  blocks f !! bb = Some blk -> definingInst f (InstValue bb (length blk)) = None.
Proof.
  intros Hblk. unfold definingInst. rewrite Hblk. simpl.
  by apply lookup_ge_None_2.
Qed.

Lemma definingInst_appended f bb blk i rest :
  blocks f !! bb = Some (blk ++ [i] ++ rest) ->
  definingInst f (InstValue bb (length blk)) = Some i.
Proof.
  intros Hblk. unfold definingInst. rewrite Hblk. simpl.
  by rewrite list_lookup_middle.
Qed.

Section PlainFunctions.
Context `{Ext : External}.

Lemma emitFunction_ok decl fe s :
  is_Some (fe_body fe) ->
  let c := SILConstant_of decl in
  let v := isVoidableType (fe_resultType fe) in
  let f := emittedFunction c v (SILGenFunction_emitFunction fe) in
  functions (M s) !! c = None -> verify f = true ->
  SILGenModule_emitFunction decl fe s
  = (Ok (Some f), emitted c (Some (fe_id fe)) v (SILGenFunction_emitFunction fe) s).
Proof.
  intros [body Hbody] c v f Hc Hv.
  rewrite emitFunction_emitOne, Hbody, bind_run. fold c v.
  by rewrite emitOne_ok.
Qed.

End PlainFunctions.

(** C2: when a context made with hasVoidReturn set reaches its end with a
    valid insertion point, its destructor appends to the insertion block an
    empty tuple, then the code of every cleanup on the stack, the last
    pushed first, then a return of the value that empty tuple defines, a
    value that named no instruction before; no other block changes and the
    insertion point is cleared.  The stack holds the cleanups the body
    pushed, in reverse push order, above those that were there before.  A
    function with a body whose declared result type is the empty tuple
    type is lowered in such a context. *)
Theorem C2_voidable_fallthrough :
  (forall (sgf0 : SILGenFunction) (steps : list LoweringStep) (bb : nat) (blk : BasicBlock),
      hasVoidReturn sgf0 = true ->
      epilogBB sgf0 = None ->
      BB (B (runSteps steps sgf0)) = Some bb ->
      blocks (F (runSteps steps sgf0)) !! bb = Some blk ->
      exists sgf',
        SILGenFunction_destroy (runSteps steps sgf0) = Ok sgf'
        /\ blocks (F sgf') !! bb =
           Some (blk ++ [TupleInst []]
                     ++ map CleanupInst (rev (pushedCleanups steps) ++ Cleanups sgf0)
                     ++ [ReturnInst (InstValue bb (length blk))])
        /\ definingInst (F (runSteps steps sgf0)) (InstValue bb (length blk)) = None
        /\ definingInst (F sgf') (InstValue bb (length blk)) = Some (TupleInst [])
        /\ (forall n, n <> bb ->
              blocks (F sgf') !! n = blocks (F (runSteps steps sgf0)) !! n)
        /\ BB (B sgf') = None)
  /\ (forall (E : External) decl fe s,
        is_Some (fe_body fe) ->
        fe_resultType fe = TheEmptyTupleType ->
        let c := SILConstant_of decl in
        let f := loweredFunction (Function_new (getConstantType c)) true
                   (SILGenFunction_emitFunction fe) in
        functions (M s) !! c = None -> verify f = true ->
        exists s',
          SILGenModule_emitFunction decl fe s = (Ok (Some f), s')
          /\ functions (M s') = <[c := f]> (functions (M s))).
Proof.
  split.
  - intros sgf0 steps bb blk Hvoid Hepi Hbb Hblk. set (sgf := runSteps steps sgf0) in *.
    assert (hasVoidReturn sgf = true) as Hvoid'
      by (unfold sgf; by rewrite runSteps_hasVoidReturn).
    assert (epilogBB sgf = None) as Hepi' by (unfold sgf; by rewrite runSteps_epilogBB).
    exists (epilogue sgf). split; [by apply (destroy_voidable _ bb)|].
    destruct (epilogue_block sgf bb blk Hbb Hblk) as [Hat Hne].
    rewrite (epilogueInsts_voidable sgf bb blk) in Hat by done.
    split; [|split; [|split; [|split; [exact Hne | apply epilogue_BB]]]].
    + rewrite Hat. unfold sgf. by rewrite runSteps_Cleanups.
    + by apply definingInst_fresh.
    + by eapply definingInst_appended.
  - intros E decl fe s Hbody Htype c f Hc Hv.
    apply isVoidableType_spec in Htype.
    exists (emitted c (Some (fe_id fe)) true (SILGenFunction_emitFunction fe) s).
    pose proof (emitFunction_ok decl fe s Hbody) as Hrun. cbv zeta in Hrun.
    rewrite Htype in Hrun. split; [by apply Hrun|]. by rewrite functions_emitted.
Qed.

Lemma C2_voidable_fallthrough_witness :
  exists sgf',
    SILGenFunction_destroy (demoContext true) = Ok sgf'
    /\ blocks (F sgf') !! 0 =
       Some ([OtherInst 7; TupleInst [];
              CleanupInst {| cleanup_id := 2 |}; CleanupInst {| cleanup_id := 1 |};
              ReturnInst (InstValue 0 1)])
    /\ definingInst (F (demoContext true)) (InstValue 0 1) = None
    /\ definingInst (F sgf') (InstValue 0 1) = Some (TupleInst [])
    /\ (forall n, n <> 0 -> blocks (F sgf') !! n = blocks (F (demoContext true)) !! n)
    /\ BB (B sgf') = None.
Proof.
  apply (proj1 C2_voidable_fallthrough
           (SILGenFunction_new (Function_new {| siltype_id := 0 |}) true)
           [StepPushCleanup {| cleanup_id := 1 |}; StepCreate (OtherInst 7);
            StepPushCleanup {| cleanup_id := 2 |}] 0 [OtherInst 7]); reflexivity.
Defined.

(** C3: when a context made with hasVoidReturn clear reaches its end with
    a valid insertion point, its destructor does not abort: it appends the
    unreachable marker to the insertion block and nothing else, so no
    return is added; the insertion point is cleared.  A function with a
    body whose declared result type is not the empty tuple type is
    lowered in such a context, and so is every closure. *)
Theorem C3_nonvoidable_fallthrough :
  (forall (sgf : SILGenFunction) (bb : nat) (blk : BasicBlock),
      hasVoidReturn sgf = false ->
      BB (B sgf) = Some bb ->
      blocks (F sgf) !! bb = Some blk ->
      exists sgf',
        SILGenFunction_destroy sgf = Ok sgf'
        /\ blocks (F sgf') !! bb = Some (blk ++ [UnreachableInst])
        /\ (forall n, n <> bb -> blocks (F sgf') !! n = blocks (F sgf) !! n)
        /\ BB (B sgf') = None)
  /\ (forall (E : External) decl fe s,
        is_Some (fe_body fe) ->
        fe_resultType fe <> TheEmptyTupleType ->
        let c := SILConstant_of decl in
        let f := loweredFunction (Function_new (getConstantType c)) false
                   (SILGenFunction_emitFunction fe) in
        functions (M s) !! c = None -> verify f = true ->
        exists s',
          SILGenModule_emitFunction decl fe s = (Ok (Some f), s')
          /\ functions (M s') = <[c := f]> (functions (M s)))
  /\ (forall (E : External) ce s,
        let c := SILConstant_of (CapturingExprLoc (ce_id ce)) in
        let f := loweredFunction (Function_new (getConstantType c)) false
                   (SILGenFunction_emitClosure ce) in
        functions (M s) !! c = None -> verify f = true ->
        exists s',
          emitClosure ce s = (Ok f, s')
          /\ functions (M s') = <[c := f]> (functions (M s))).
Proof.
  split; [|split].
  - intros sgf bb blk Hvoid Hbb Hblk. exists (epilogue sgf).
    split; [by apply (destroy_nonvoidable _ bb)|].
    destruct (epilogue_block sgf bb blk Hbb Hblk) as [Hat Hne].
    split; [|split; [exact Hne | apply epilogue_BB]].
    rewrite Hat. unfold epilogueInsts. by rewrite Hvoid.
  - intros E decl fe s Hbody Htype c f Hc Hv.
    assert (isVoidableType (fe_resultType fe) = false) as Hvoid.
    { destruct (isVoidableType (fe_resultType fe)) eqn:Hvoid; [|done].
      by apply isVoidableType_spec in Hvoid. }
    exists (emitted c (Some (fe_id fe)) false (SILGenFunction_emitFunction fe) s).
    pose proof (emitFunction_ok decl fe s Hbody) as Hrun. cbv zeta in Hrun.
    rewrite Hvoid in Hrun. split; [by apply Hrun|]. by rewrite functions_emitted.
  - intros E ce s c f Hc Hv.
    exists (emitted c (Some (ce_id ce)) false (SILGenFunction_emitClosure ce) s).
    split; [|by rewrite functions_emitted].
    rewrite emitClosure_emitOne. by apply emitOne_ok.
Qed.

Lemma C3_nonvoidable_fallthrough_witness :
  exists sgf',
    SILGenFunction_destroy (demoContext false) = Ok sgf'
    /\ blocks (F sgf') !! 0 = Some [OtherInst 7; UnreachableInst]
    /\ (forall n, n <> 0 -> blocks (F sgf') !! n = blocks (F (demoContext false)) !! n)
    /\ BB (B sgf') = None.
Proof.
  apply (proj1 C3_nonvoidable_fallthrough (demoContext false) 0 [OtherInst 7]);
    reflexivity.
Defined.

(** ** Constructors *)

(** C4, as worded: a class constructor does not get an Allocator key.  The
    keys its emission adds are the key built from the declaration alone
    and the Initializer key. *)
Lemma C4_no_allocator_key :
  ctor_thisHasReferenceSemantics demoClassCtor = true
  /\ functions (M (@emitConstructor demoExternal demoClassCtor demoState).2)
       !! mkSILConstant (ValueDeclLoc 5) Allocator = None
  /\ newKeys demoState (@emitConstructor demoExternal demoClassCtor demoState).2
     <> specifiedConstructorKeys demoClassCtor.
Proof.
  split; [reflexivity|]. split; [vm_compute; reflexivity|]. intros Heq.
  assert (mkSILConstant (ValueDeclLoc 5) Allocator ∈ specifiedConstructorKeys demoClassCtor)
    as Hin.
  { unfold specifiedConstructorKeys. simpl. apply elem_of_union_l. by apply elem_of_singleton. }
  rewrite <- Heq in Hin. unfold newKeys in Hin.
  apply elem_of_difference in Hin as [Hin _]. apply elem_of_dom in Hin.
  assert (functions (M (@emitConstructor demoExternal demoClassCtor demoState).2)
            !! mkSILConstant (ValueDeclLoc 5) Allocator = None) as Hnone
    by (vm_compute; reflexivity).
  rewrite Hnone in Hin. by destruct Hin.
Qed.

(** C4, amended: for a constructor with a body.  If the constructed type
    has reference semantics, and neither key is in the table and both
    lowered functions verify, the policy returns the allocator and adds
    exactly two keys, the key built from the declaration alone (role
    Plain) for the allocator and the Initializer key for the initializer;
    each went through its own preEmitFunction and postEmitFunction, in
    this order, and each was lowered in a context of its own made with
    hasVoidReturn set.  If the type has value semantics, and the key is
    not in the table and the lowered function verifies, the policy adds
    exactly one key, the key built from the declaration alone, lowered in
    one context made with hasVoidReturn set. *)
Theorem C4_constructor_keys (E : External) (decl : ConstructorDecl) (s : SILGenModule) :
  is_Some (ctor_body decl) ->
  let loc := ValueDeclLoc (ctor_id decl) in
  let node := Some (ctor_id decl) in
  let plain := SILConstant_of loc in
  let init := mkSILConstant loc Initializer in
  let fA := emittedFunction plain true (SILGenFunction_emitClassConstructorAllocator decl) in
  let fI := emittedFunction init true (SILGenFunction_emitClassConstructorInitializer decl) in
  let fV := emittedFunction plain true (SILGenFunction_emitValueConstructor decl) in
  (ctor_thisHasReferenceSemantics decl = true ->
   functions (M s) !! plain = None -> functions (M s) !! init = None ->
   verify fA = true -> verify fI = true ->
   exists s',
     emitConstructor decl s = (Ok (Some fA), s')
     /\ functions (M s') = <[init := fI]> (<[plain := fA]> (functions (M s)))
     /\ newKeys s s' = {[ plain; init ]}
     /\ size (newKeys s s') = 2
     /\ kind plain = Plain /\ kind init = Initializer
     /\ frameOf s' = frameOf s
     /\ (Verbose s = true ->
         errs s' = errs s ++ (preDumps plain node ++ [DumpFunction fA])
                          ++ (preDumps init node ++ [DumpFunction fI])))
  /\ (ctor_thisHasReferenceSemantics decl = false ->
      functions (M s) !! plain = None -> verify fV = true ->
      exists s',
        emitConstructor decl s = (Ok (Some fV), s')
        /\ functions (M s') = <[plain := fV]> (functions (M s))
        /\ newKeys s s' = {[ plain ]}
        /\ size (newKeys s s') = 1
        /\ kind plain = Plain
        /\ frameOf s' = frameOf s
        /\ (Verbose s = true ->
            errs s' = errs s ++ (preDumps plain node ++ [DumpFunction fV]))).
Proof.
  intros [body Hbody]. cbv zeta.
  set (loc := ValueDeclLoc (ctor_id decl)).
  set (plain := SILConstant_of loc). set (init := mkSILConstant loc Initializer).
  assert (plain <> init) as Hne by done.
  split.
  - intros Href Hplain Hinit HvA HvI.
    set (s1 := emitted plain (Some (ctor_id decl)) true
                 (SILGenFunction_emitClassConstructorAllocator decl) s).
    assert (functions (M s1) !! init = None) as Hinit1.
    { unfold s1. by rewrite functions_emitted, lookup_insert_ne. }
    exists (emitted init (Some (ctor_id decl)) true
              (SILGenFunction_emitClassConstructorInitializer decl) s1).
    assert (newKeys s
              (emitted init (Some (ctor_id decl)) true
                 (SILGenFunction_emitClassConstructorInitializer decl) s1)
            = {[ plain; init ]}) as Hkeys.
    { unfold newKeys. rewrite functions_emitted. unfold s1.
      rewrite functions_emitted, !dom_insert_L.
      apply not_elem_of_dom in Hplain, Hinit. apply set_eq. intros x.
      rewrite elem_of_difference, !elem_of_union, !elem_of_singleton.
      split; [intros [[->|[->|?]] ?]; by eauto | intros [->| ->]; by eauto]. }
    split; [|split; [|split; [|split; [|split; [|split; [|split]]]]]].
    + rewrite emitConstructor_emitOne, Hbody. cbv zeta. rewrite Href.
      rewrite bind_run, emitOne_ok by done. fold s1.
      rewrite bind_run, emitOne_ok by done. done.
    + rewrite functions_emitted. unfold s1. by rewrite functions_emitted.
    + exact Hkeys.
    + rewrite Hkeys. by rewrite size_union, !size_singleton
        by (apply disjoint_singleton_l; by rewrite elem_of_singleton).
    + done.
    + done.
    + rewrite frameOf_emitted. unfold s1. by rewrite frameOf_emitted.
    + intros Hv. rewrite errs_emitted by (unfold s1; by rewrite Verbose_emitted).
      unfold s1. rewrite errs_emitted by done. by rewrite <- !(assoc_L (++)).
  - intros Hval Hplain HvV.
    exists (emitted plain (Some (ctor_id decl)) true
              (SILGenFunction_emitValueConstructor decl) s).
    split; [|split; [|split; [|split; [|split; [|split]]]]].
    + rewrite emitConstructor_emitOne, Hbody. cbv zeta. rewrite Hval.
      rewrite bind_run, emitOne_ok by done. done.
    + by rewrite functions_emitted.
    + by apply newKeys_emitted.
    + rewrite newKeys_emitted by done. apply size_singleton.
    + done.
    + by rewrite frameOf_emitted.
    + intros Hv. by rewrite errs_emitted.
Qed.

Lemma C4_constructor_keys_witness :
  (exists s',
      @emitConstructor demoExternal demoClassCtor demoState = (Ok (Some
         (@emittedFunction demoExternal (SILConstant_of (ValueDeclLoc 5)) true
            [StepCreate (OtherInst 10)])), s')
      /\ newKeys demoState s'
         = {[ SILConstant_of (ValueDeclLoc 5); mkSILConstant (ValueDeclLoc 5) Initializer ]})
  /\ (exists s',
      @emitConstructor demoExternal demoStructCtor demoState = (Ok (Some
         (@emittedFunction demoExternal (SILConstant_of (ValueDeclLoc 6)) true
            [StepCreate (OtherInst 12)])), s')
      /\ newKeys demoState s' = {[ SILConstant_of (ValueDeclLoc 6) ]}).
Proof.
  split.
  - destruct (proj1 (C4_constructor_keys demoExternal demoClassCtor demoState
                       (ex_intro _ demoBody eq_refl))
                eq_refl eq_refl eq_refl eq_refl eq_refl)
      as (s' & Hrun & _ & Hkeys & _).
    exists s'. split; [exact Hrun | exact Hkeys].
  - destruct (proj2 (C4_constructor_keys demoExternal demoStructCtor demoState
                       (ex_intro _ demoBody eq_refl))
                eq_refl eq_refl eq_refl)
      as (s' & Hrun & _ & Hkeys & _).
    exists s'. split; [exact Hrun | exact Hkeys].
Defined.

(** ** Duplicates, prototypes, destructors *)

(** C5: an emission under a key that is already in the function table
    aborts in preEmitFunction, on its assertion, with the state as it was:
    the table has not been touched.  This holds for preEmitFunction itself
    and for every emission policy whose first key it is.  What the table
    holds under the key stays there through any further lowering, whether
    it completes or aborts: no entry is overwritten. *)
Theorem C5_no_duplicate_emission (E : External) (c : SILConstant) (s : SILGenModule) :
  is_Some (functions (M s) !! c) ->
  (forall astNode,
      preEmitFunction c astNode s = (Fault "already generated function for constant!", s))
  /\ (forall decl fe,
        is_Some (fe_body fe) -> SILConstant_of decl = c ->
        SILGenModule_emitFunction decl fe s
        = (Fault "already generated function for constant!", s))
  /\ (forall decl,
        is_Some (ctor_body decl) -> SILConstant_of (ValueDeclLoc (ctor_id decl)) = c ->
        emitConstructor decl s = (Fault "already generated function for constant!", s))
  /\ (forall ce,
        SILConstant_of (CapturingExprLoc (ce_id ce)) = c ->
        emitClosure ce s = (Fault "already generated function for constant!", s))
  /\ (forall cd dd,
        mkSILConstant (ValueDeclLoc (class_id cd)) Destructor = c ->
        emitDestructor cd dd s = (Fault "already generated function for constant!", s))
  /\ (forall ds, functions (M (visitAll ds s).2) !! c = functions (M s) !! c)
  /\ (forall decl fe,
        functions (M (SILGenModule_emitFunction decl fe s).2) !! c = functions (M s) !! c)
  /\ (forall decl, functions (M (emitConstructor decl s).2) !! c = functions (M s) !! c)
  /\ (forall ce, functions (M (emitClosure ce s).2) !! c = functions (M s) !! c)
  /\ (forall cd dd, functions (M (emitDestructor cd dd s).2) !! c = functions (M s) !! c).
Proof.
  intros Hc.
  assert (forall t : gmap SILConstant Function,
             functions (M s) ⊆ t -> t !! c = functions (M s) !! c) as Hkeep.
  { intros t Ht. destruct Hc as [f Hf]. rewrite Hf. by eapply lookup_weaken. }
  split; [|split; [|split; [|split; [|split; [|split; [|split; [|split; [|split]]]]]]]].
  - intros astNode. rewrite preEmitFunction_run.
    apply hasFunction_true in Hc. by rewrite Hc.
  - intros decl fe [body Hbody] <-. rewrite emitFunction_emitOne, Hbody.
    by rewrite bind_run, emitOne_duplicate.
  - intros decl [body Hbody] <-. rewrite emitConstructor_emitOne, Hbody. cbv zeta.
    destruct (ctor_thisHasReferenceSemantics decl);
      by rewrite bind_run, emitOne_duplicate.
  - intros ce <-. by rewrite emitClosure_emitOne, emitOne_duplicate.
  - intros cd dd <-. by rewrite emitDestructor_emitOne, emitOne_duplicate.
  - intros ds. apply Hkeep, visitAll_grows.
  - intros decl fe. apply Hkeep.
    by apply (emitFunction_preserves _ decl fe (grows_Stable (functions (M s)))).
  - intros decl. apply Hkeep.
    by apply (emitConstructor_preserves _ decl (grows_Stable (functions (M s)))).
  - intros ce. apply Hkeep.
    by apply (emitClosure_preserves _ ce (grows_Stable (functions (M s)))).
  - intros cd dd. apply Hkeep.
    by apply (emitDestructor_preserves _ cd dd (grows_Stable (functions (M s)))).
Qed.

Lemma C5_no_duplicate_emission_witness :
  is_Some (functions (M demoStateWithDestructor)
             !! mkSILConstant (ValueDeclLoc 8) Destructor)
  /\ @emitDestructor demoExternal demoClass (Some demoDestructor) demoStateWithDestructor
     = (Fault "already generated function for constant!", demoStateWithDestructor).
Proof.
  assert (is_Some (functions (M demoStateWithDestructor)
                     !! mkSILConstant (ValueDeclLoc 8) Destructor)) as Hc
    by (eexists; reflexivity).
  split; [exact Hc|].
  exact (proj1 (proj2 (proj2 (proj2 (proj2
           (C5_no_duplicate_emission demoExternal _ demoStateWithDestructor Hc)))))
           demoClass (Some demoDestructor) eq_refl).
Defined.

(** C6: at the end of the scope of a coordinator made for a class,
    whether or not an explicit destructor was registered, the destructor
    policy of the module runs once: when the Destructor key of the class is
    not in the table and the lowered function verifies, exactly that one
    key is added, and nothing else in the table changes. *)
Theorem C6_class_destructor_emitted
    (E : External) (sgt : SILGenType) (theClass : ClassDecl) (s : SILGenModule) :
  dyn_cast_ClassDecl (theType sgt) = Some theClass ->
  let key := mkSILConstant (ValueDeclLoc (class_id theClass)) Destructor in
  let f := emittedFunction key true
             (SILGenFunction_emitDestructor theClass (explicitDestructor sgt)) in
  functions (M s) !! key = None ->
  verify f = true ->
  exists s',
    SILGenType_destroy sgt s = (Ok tt, s')
    /\ s' = (emitDestructor theClass (explicitDestructor sgt) s).2
    /\ functions (M s') = <[key := f]> (functions (M s))
    /\ newKeys s s' = {[ key ]}
    /\ size (newKeys s s') = 1
    /\ kind key = Destructor.
Proof.
  intros Hclass key f Hkey Hverify.
  exists (emitted key (dtor_id <$> explicitDestructor sgt) true
            (SILGenFunction_emitDestructor theClass (explicitDestructor sgt)) s).
  assert (emitDestructor theClass (explicitDestructor sgt) s
          = (Ok f, emitted key (dtor_id <$> explicitDestructor sgt) true
                     (SILGenFunction_emitDestructor theClass (explicitDestructor sgt)) s))
    as Hrun by (rewrite emitDestructor_emitOne; by apply emitOne_ok).
  split; [|split; [|split; [|split; [|split]]]].
  - unfold SILGenType_destroy. rewrite Hclass, bind_run, Hrun. done.
  - by rewrite Hrun.
  - by rewrite functions_emitted.
  - by apply newKeys_emitted.
  - rewrite newKeys_emitted by done. apply size_singleton.
  - done.
Qed.

Lemma C6_class_destructor_emitted_witness :
  (exists s',
      @SILGenType_destroy demoExternal (SILGenType_new (ClassNominal demoClass)) demoState
      = (Ok tt, s')
      /\ newKeys demoState s' = {[ mkSILConstant (ValueDeclLoc 8) Destructor ]})
  /\ (exists s',
      @SILGenType_destroy demoExternal
        (registerDestructor demoDestructor (SILGenType_new (ClassNominal demoClass)))
        demoState
      = (Ok tt, s')
      /\ newKeys demoState s' = {[ mkSILConstant (ValueDeclLoc 8) Destructor ]}).
Proof.
  split.
  - destruct (C6_class_destructor_emitted demoExternal
                (SILGenType_new (ClassNominal demoClass)) demoClass demoState
                eq_refl eq_refl eq_refl) as (s' & Hrun & _ & _ & Hkeys & _).
    exists s'. split; [exact Hrun | exact Hkeys].
  - destruct (C6_class_destructor_emitted demoExternal
                (registerDestructor demoDestructor (SILGenType_new (ClassNominal demoClass)))
                demoClass demoState
                eq_refl eq_refl eq_refl) as (s' & Hrun & _ & _ & Hkeys & _).
    exists s'. split; [exact Hrun | exact Hkeys].
Defined.

(** C8: a function or a constructor without body is skipped: the policy
    returns no function, does not abort, and leaves the whole state, the
    function table included, as it was. *)
Theorem C8_prototypes_are_skipped (E : External) (s : SILGenModule) :
  (forall decl fe,
      fe_body fe = None -> SILGenModule_emitFunction decl fe s = (Ok None, s))
  /\ (forall fd, fe_body (fd_body fd) = None -> visitFuncDecl fd s = (Ok tt, s))
  /\ (forall decl, ctor_body decl = None -> emitConstructor decl s = (Ok None, s)).
Proof.
  split; [|split].
  - intros decl fe Hbody. by rewrite emitFunction_emitOne, Hbody.
  - intros fd Hbody. unfold visitFuncDecl.
    by rewrite bind_run, emitFunction_emitOne, Hbody.
  - intros decl Hbody. by rewrite emitConstructor_emitOne, Hbody.
Qed.

Lemma C8_prototypes_are_skipped_witness :
  @SILGenModule_emitFunction demoExternal (ValueDeclLoc 2) demoPrototype demoState
  = (Ok None, demoState)
  /\ @emitConstructor demoExternal demoPrototypeCtor demoState = (Ok None, demoState).
Proof.
  split.
  - exact (proj1 (C8_prototypes_are_skipped demoExternal demoState)
             (ValueDeclLoc 2) demoPrototype eq_refl).
  - exact (proj2 (proj2 (C8_prototypes_are_skipped demoExternal demoState))
             demoPrototypeCtor eq_refl).
Defined.

(** C9: at the end of the scope of a coordinator made for a type that is
    not a class, a registered explicit destructor makes the assertion
    fail: the pass aborts.  Whether or not it aborts, nothing is emitted:
    the state is as it was. *)
Theorem C9_destructor_in_non_class
    (E : External) (sgt : SILGenType) (s : SILGenModule) :
  dyn_cast_ClassDecl (theType sgt) = None ->
  (forall dd, explicitDestructor sgt = Some dd ->
              SILGenType_destroy sgt s = (Fault "destructor in non-class type?!", s))
  /\ (explicitDestructor sgt = None -> SILGenType_destroy sgt s = (Ok tt, s))
  /\ (SILGenType_destroy sgt s).2 = s.
Proof.
  intros Hclass. unfold SILGenType_destroy. rewrite Hclass. unfold assert.
  split; [|split].
  - intros dd Hdd. by rewrite Hdd.
  - intros Hdd. by rewrite Hdd.
  - by destruct (bool_decide _).
Qed.

Lemma C9_destructor_in_non_class_witness :
  @SILGenType_destroy demoExternal
    (registerDestructor demoDestructor (SILGenType_new (ValueNominal 20))) demoState
  = (Fault "destructor in non-class type?!", demoState).
Proof.
  exact (proj1 (C9_destructor_in_non_class demoExternal
                  (registerDestructor demoDestructor (SILGenType_new (ValueNominal 20)))
                  demoState eq_refl)
           demoDestructor eq_refl).
Defined.

(** ** The entry point *)

(** C7: [constructSIL] asks for a top-level function exactly for the
    kinds Main and Repl, and the module it builds has one exactly then,
    whatever the outcome of the pass.  The orchestrator makes a top-level
    context exactly when the module has a top-level function, with
    hasVoidReturn set.  In the module handed back, the top-level function
    is what that context leaves behind after the top-level code of the
    unit; when that code ends with a valid insertion point, the insertion
    block ends with an empty tuple, the cleanups, and the return of that
    empty tuple. *)
Theorem C7_toplevel_context (E : External) (tu : TranslationUnit) (verbose : bool) :
  let hasTopLevel := constructSIL_hasTopLevel (Kind tu) in
  let steps := topLevelSteps (Decls tu) in
  let sgf := runSteps steps (SILGenFunction_new (Function_new toplevelType) true) in
  (hasTopLevel = true <-> Kind tu = Main \/ Kind tu = Repl)
  /\ (is_Some (toplevel (M (constructSIL_run tu verbose).2))
      <-> Kind tu = Main \/ Kind tu = Repl)
  /\ TopLevelSGF (SILGenModule_new (SILModule_new hasTopLevel toplevelType) verbose)
     = (if hasTopLevel
        then Some (SILGenFunction_new (Function_new toplevelType) true)
        else None)
  /\ (forall m,
        constructSIL tu verbose = Ok m ->
        (Kind tu = Library -> toplevel m = None)
        /\ (Kind tu <> Library ->
            toplevel m = Some (loweredFunction (Function_new toplevelType) true steps)
            /\ forall bb blk,
                 BB (B sgf) = Some bb -> blocks (F sgf) !! bb = Some blk ->
                 blocks (loweredFunction (Function_new toplevelType) true steps) !! bb
                 = Some (blk ++ [TupleInst []]
                             ++ map CleanupInst (rev (pushedCleanups steps))
                             ++ [ReturnInst (InstValue bb (length blk))]))).
Proof.
  cbv zeta.
  assert (constructSIL_hasTopLevel (Kind tu) = true <-> Kind tu = Main \/ Kind tu = Repl)
    as Hkind.
  { destruct (Kind tu); simpl; split; intros Hk; try done; try (by left); try (by right).
    by destruct Hk. }
  split; [exact Hkind|]. split; [by rewrite constructSIL_run_has_toplevel|].
  split; [by destruct (constructSIL_hasTopLevel (Kind tu))|].
  intros m Hrun. unfold constructSIL in Hrun.
  destruct (constructSIL_run tu verbose) as [[[]|msg] s] eqn:Hs; [|done].
  simplify_eq. rewrite (constructSIL_run_toplevel tu verbose s Hs). split.
  - intros Hlib. by rewrite Hlib.
  - intros Hlib.
    assert (constructSIL_hasTopLevel (Kind tu) = true) as ->
      by (by destruct (Kind tu)).
    split; [done|]. intros bb blk Hbb Hblk.
    set (sgf := runSteps _ _) in *.
    rewrite loweredFunction_epilogue. fold sgf.
    destruct (epilogue_block sgf bb blk Hbb Hblk) as [Hat _]. rewrite Hat.
    rewrite (epilogueInsts_voidable sgf bb blk); [| |done..].
    + unfold sgf. by rewrite runSteps_Cleanups, app_nil_r.
    + unfold sgf. by rewrite runSteps_hasVoidReturn.
Qed.

Lemma C7_toplevel_context_witness :
  (exists m,
      @constructSIL demoExternal demoUnit false = Ok m
      /\ toplevel m
         = Some {| fnType := {| siltype_id := 0 |};
                   blocks := [[OtherInst 3; TupleInst []; ReturnInst (InstValue 0 1)]] |})
  /\ (exists m, @constructSIL demoExternal demoLibrary false = Ok m /\ toplevel m = None).
Proof.
  split.
  - destruct (@constructSIL demoExternal demoUnit false) as [m|msg] eqn:Hrun;
      [|by vm_compute in Hrun].
    exists m. split; [reflexivity|].
    destruct (proj2 (proj2 (proj2 (C7_toplevel_context demoExternal demoUnit false)))
                m Hrun) as [_ Hmain].
    destruct (Hmain ltac:(discriminate)) as [Htl _]. exact Htl.
  - destruct (@constructSIL demoExternal demoLibrary false) as [m|msg] eqn:Hrun;
      [|by vm_compute in Hrun].
    exists m. split; [reflexivity|].
    destruct (proj2 (proj2 (proj2 (C7_toplevel_context demoExternal demoLibrary false)))
                m Hrun) as [Hlib _].
    exact (Hlib eq_refl).
Defined.

(** ** The entry block *)

(** C10: constructing a context appends one empty block to its function
    and positions the builder on it; the cleanup stack is empty.  Every
    context therefore leaves a function with at least one block, and so
    has every function in the table of the module under construction.
    Over a shell, a body that appends nothing leaves exactly one block:
    the entry block holding the epilogue, the unit return or the
    unreachable marker. *)
Theorem C10_entry_block :
  (forall f v,
      blocks (F (SILGenFunction_new f v)) = blocks f ++ [[]]
      /\ BB (B (SILGenFunction_new f v)) = Some (length (blocks f))
      /\ hasValidInsertionPoint (B (SILGenFunction_new f v)) = true
      /\ Cleanups (SILGenFunction_new f v) = [])
  /\ (forall f v steps,
        exists sgf, lowerBody f v steps = Ok sgf /\ 1 <= length (blocks (F sgf)))
  /\ (forall (E : External) tu verbose c f,
        functions (M (constructSIL_run tu verbose).2) !! c = Some f ->
        1 <= length (blocks f))
  /\ (forall t v,
        exists sgf,
          lowerBody (Function_new t) v [] = Ok sgf
          /\ blocks (F sgf)
             = [if v then [TupleInst []; ReturnInst (InstValue 0 0)]
                else [UnreachableInst]]
          /\ openBlocks (F sgf) = 0).
Proof.
  split; [|split; [|split]].
  - intros f v. split; [done|]. split; [done|]. split; [|done].
    by apply (hasValidInsertionPoint_Some _ (length (blocks f))).
  - intros f v steps. exists (epilogue (runSteps steps (SILGenFunction_new f v))).
    split; [apply lowerBody_epilogue|].
    rewrite <- loweredFunction_epilogue. apply loweredFunction_nonempty.
  - intros E tu verbose c f Hf.
    by destruct (constructSIL_run_wellTerminated tu verbose c f Hf).
  - intros t v. exists (epilogue (SILGenFunction_new (Function_new t) v)).
    split; [apply (lowerBody_epilogue _ _ [])|]. by destruct v.
Qed.

Lemma C10_entry_block_witness :
  functions (M (@constructSIL_run demoExternal demoUnit false).2)
    !! mkSILConstant (ValueDeclLoc 5) Initializer
  = Some {| fnType := {| siltype_id := 1 |};
            blocks := [[OtherInst 11; TupleInst []; ReturnInst (InstValue 0 1)]] |}
  /\ 1 <= length [[OtherInst 11; TupleInst []; ReturnInst (InstValue 0 1)]].
Proof.
  assert (functions (M (@constructSIL_run demoExternal demoUnit false).2)
            !! mkSILConstant (ValueDeclLoc 5) Initializer
          = Some {| fnType := {| siltype_id := 1 |};
                    blocks := [[OtherInst 11; TupleInst []; ReturnInst (InstValue 0 1)]] |})
    as Hf by (vm_compute; reflexivity).
  split; [exact Hf|].
  exact (proj1 (proj2 (proj2 C10_entry_block)) demoExternal demoUnit false _ _ Hf).
Defined.

(** * Further properties of the functions of the file *)

(** ** The destructor of a context, once more *)

Lemma destroy_Ok_epilogue sgf sgf' :
  SILGenFunction_destroy sgf = Ok sgf' -> sgf' = epilogue sgf.
Proof.
  intros Hd. destruct (BB (B sgf)) as [bb|] eqn:Hbb.
  - destruct (hasVoidReturn sgf) eqn:Hvoid.
    + destruct (epilogBB sgf) as [e|] eqn:Hepi.
      * by rewrite (destroy_voidable_fault _ bb e) in Hd.
      * rewrite (destroy_voidable _ bb) in Hd by done. by simplify_eq.
    + rewrite (destroy_nonvoidable _ bb) in Hd by done. by simplify_eq.
  - rewrite destroy_invalid in Hd by done. simplify_eq.
    unfold epilogue. by rewrite Hbb.
Qed.

(** X1: the destructor of a context is idempotent: run again on the
    context it left, it succeeds and changes nothing, since it cleared the
    insertion point. *)
Theorem X1_destroy_idempotent (sgf sgf' : SILGenFunction) :
  SILGenFunction_destroy sgf = Ok sgf' ->
  SILGenFunction_destroy sgf' = Ok sgf'.
Proof.
  intros Hd. apply destroy_Ok_epilogue in Hd as ->.
  apply destroy_invalid, epilogue_BB.
Qed.

Lemma X1_destroy_idempotent_witness :
  SILGenFunction_destroy (epilogue (demoContext true)) = Ok (epilogue (demoContext true)).
Proof.
  apply (X1_destroy_idempotent (demoContext true)). reflexivity.
Defined.

(** X2: the destructor of a context only appends to the insertion block.
    It adds and removes no block, every block keeps its instructions as a
    prefix, a block other than the insertion block is unchanged, and the
    type of the function, the cleanup stack and the two flags of the
    context stay as they were. *)
Theorem X2_destroy_only_appends (sgf sgf' : SILGenFunction) :
  SILGenFunction_destroy sgf = Ok sgf' ->
  length (blocks (F sgf')) = length (blocks (F sgf))
  /\ fnType (F sgf') = fnType (F sgf)
  /\ Cleanups sgf' = Cleanups sgf
  /\ hasVoidReturn sgf' = hasVoidReturn sgf
  /\ epilogBB sgf' = epilogBB sgf
  /\ (forall n blk,
        blocks (F sgf) !! n = Some blk ->
        exists suffix,
          blocks (F sgf') !! n = Some (blk ++ suffix)
          /\ (BB (B sgf) <> Some n -> suffix = [])).
Proof.
  intros Hd. apply destroy_Ok_epilogue in Hd as ->.
  split; [apply epilogue_length|].
  unfold epilogue. destruct (BB (B sgf)) as [bb|] eqn:Hbb.
  - unfold F. simpl. repeat (split; [done|]).
    intros n blk Hn. destruct (decide (n = bb)) as [->|Hne].
    + exists (epilogueInsts sgf). rewrite list_lookup_alter_eq, Hn. by split.
    + exists []. rewrite list_lookup_alter_ne, app_nil_r by done. by split.
  - repeat (split; [done|]). intros n blk Hn. exists []. rewrite app_nil_r. by split.
Qed.

Lemma X2_destroy_only_appends_witness :
  length (blocks (F (epilogue (demoContext false)))) = length (blocks (F (demoContext false)))
  /\ Cleanups (epilogue (demoContext false)) = Cleanups (demoContext false).
Proof.
  destruct (X2_destroy_only_appends (demoContext false) (epilogue (demoContext false))
              eq_refl) as (Hlen & _ & Hcl & _).
  split; [exact Hlen | exact Hcl].
Defined.

(** ** postEmitFunction *)

(** X3: a function that does not verify is not recorded: postEmitFunction
    aborts with the module and the top-level context as they were.  In
    verbose mode the function was dumped before it was verified. *)
Theorem X3_postEmitFunction_verify_failure
    (E : External) (c : SILConstant) (f : Function) (s : SILGenModule) :
  verify f = false ->
  exists s',
    postEmitFunction c f s = (Fault "verify", s')
    /\ M s' = M s
    /\ TopLevelSGF s' = TopLevelSGF s
    /\ errs s' = (if Verbose s then errs s ++ [DumpFunction f] else errs s).
Proof.
  intros Hv. exists (logged [DumpFunction f] s).
  rewrite postEmitFunction_run, Hv.
  by rewrite M_logged, TopLevelSGF_logged, errs_logged.
Qed.

Lemma X3_postEmitFunction_verify_failure_witness :
  exists s',
    @postEmitFunction demoExternal (SILConstant_of (ValueDeclLoc 1)) demoOpenFunction demoState
    = (Fault "verify", s')
    /\ M s' = M demoState
    /\ TopLevelSGF s' = TopLevelSGF demoState
    /\ errs s' = [DumpFunction demoOpenFunction].
Proof.
  apply (X3_postEmitFunction_verify_failure demoExternal
           (SILConstant_of (ValueDeclLoc 1)) demoOpenFunction demoState).
  reflexivity.
Defined.

(** X4: postEmitFunction records a function that verifies under its key,
    whether or not the key was taken: what the table held under the key is
    replaced, every other entry and the top-level function stay.  The
    check for a taken key is not made here. *)
Theorem X4_postEmitFunction_records
    (E : External) (c : SILConstant) (f : Function) (s : SILGenModule) :
  verify f = true ->
  exists s',
    postEmitFunction c f s = (Ok tt, s')
    /\ functions (M s') !! c = Some f
    /\ hasFunction (M s') c = true
    /\ (forall c', c' <> c -> functions (M s') !! c' = functions (M s) !! c')
    /\ toplevel (M s') = toplevel (M s)
    /\ TopLevelSGF s' = TopLevelSGF s.
Proof.
  intros Hv. exists (stored c f (logged [DumpFunction f] s)).
  rewrite postEmitFunction_run, Hv.
  assert (functions (M (stored c f (logged [DumpFunction f] s))) !! c = Some f) as Hc
    by (by rewrite functions_stored, lookup_insert_eq).
  split; [done|]. split; [exact Hc|]. split; [|split; [|split]].
  - apply hasFunction_true. by rewrite Hc.
  - intros c' Hne. by rewrite functions_stored, lookup_insert_ne, M_logged.
  - unfold stored. simpl. by rewrite M_logged.
  - unfold stored. simpl. by rewrite TopLevelSGF_logged.
Qed.

Lemma X4_postEmitFunction_records_witness :
  exists s',
    @postEmitFunction demoExternal (mkSILConstant (ValueDeclLoc 5) Initializer)
      (Function_new {| siltype_id := 7 |}) demoStateWithInitializer = (Ok tt, s')
    /\ functions (M s') !! mkSILConstant (ValueDeclLoc 5) Initializer
       = Some (Function_new {| siltype_id := 7 |}).
Proof.
  destruct (X4_postEmitFunction_records demoExternal
              (mkSILConstant (ValueDeclLoc 5) Initializer)
              (Function_new {| siltype_id := 7 |}) demoStateWithInitializer eq_refl)
    as (s' & Hrun & Hc & _).
  exists s'. split; [exact Hrun | exact Hc].
Defined.

(** ** The outcomes of the emission policies *)

Section Outcomes.
Context `{Ext : External}.

Lemma emitOne_outcome c n v steps s :
  emissionOutcome c (emittedFunction c v steps)
    (fun g => g = emittedFunction c v steps) s (emitOne c n v steps s).
Proof.
  rewrite emitOne_run. unfold emissionOutcome.
  destruct (hasFunction (M s) c) eqn:Hc.
  - split; [done|]. left. split; [done|]. by apply hasFunction_true.
  - apply hasFunction_false in Hc. cbv zeta.
    destruct (verify (emittedFunction c v steps)) eqn:Hv.
    + split; [done|]. split; [done|]. split; [done|]. by rewrite functions_emitted.
    + split; [by rewrite !M_logged|]. right. by split.
Qed.

Lemma emitOne_Ok_inv c n v steps s g s' :
  emitOne c n v steps s = (Ok g, s') ->
  g = emittedFunction c v steps
  /\ functions (M s) !! c = None
  /\ verify (emittedFunction c v steps) = true
  /\ s' = emitted c n v steps s.
Proof.
  rewrite emitOne_run. destruct (hasFunction (M s) c) eqn:Hc; [done|].
  apply hasFunction_false in Hc. cbv zeta.
  destruct (verify (emittedFunction c v steps)) eqn:Hv; [|done].
  intros ?; by simplify_eq.
Qed.

Lemma emitOne_Fault_inv c n v steps s msg s' :
  emitOne c n v steps s = (Fault msg, s') ->
  functions (M s') = functions (M s) /\ frameOf s' = frameOf s.
Proof.
  rewrite emitOne_run. destruct (hasFunction (M s) c) eqn:Hc.
  - intros ?; by simplify_eq.
  - cbv zeta. destruct (verify (emittedFunction c v steps)) eqn:Hv; [done|].
    intros ?; simplify_eq. by rewrite !M_logged, !frameOf_logged.
Qed.

End Outcomes.



(** X6: the emission of a class constructor is not atomic.  When the
    allocator goes through (its key is free and it verifies) and the
    initializer does not (its key is taken, or it does not verify), the
    pass aborts with the allocator recorded in the table and the
    Initializer entry as it was. *)
Theorem X6_constructor_aborts_after_allocator
    (E : External) (decl : ConstructorDecl) (s : SILGenModule) :
  is_Some (ctor_body decl) ->
  ctor_thisHasReferenceSemantics decl = true ->
  let loc := ValueDeclLoc (ctor_id decl) in
  let plain := SILConstant_of loc in
  let init := mkSILConstant loc Initializer in
  let fA := emittedFunction plain true (SILGenFunction_emitClassConstructorAllocator decl) in
  let fI := emittedFunction init true (SILGenFunction_emitClassConstructorInitializer decl) in
  functions (M s) !! plain = None ->
  verify fA = true ->
  is_Some (functions (M s) !! init) \/ verify fI = false ->
  exists msg s',
    emitConstructor decl s = (Fault msg, s')
    /\ functions (M s') = <[plain := fA]> (functions (M s))
    /\ functions (M s') !! init = functions (M s) !! init.
Proof.
  intros [body Hbody] Href loc plain init fA fI Hplain HvA Hinit.
  assert (plain <> init) as Hne by done.
  rewrite emitConstructor_emitOne, Hbody. cbv zeta. rewrite Href.
  rewrite bind_run, emitOne_ok by done. fold loc plain init.
  set (s1 := emitted plain _ true _ s).
  assert (functions (M s1) = <[plain := fA]> (functions (M s))) as Hs1
    by (unfold s1; by rewrite functions_emitted).
  rewrite bind_run.
  pose proof (emitOne_outcome init (Some (ctor_id decl)) true
                (SILGenFunction_emitClassConstructorInitializer decl) s1) as Hone.
  destruct (emitOne init _ true _ s1) as [[g|msg] s2] eqn:Hrun;
    unfold emissionOutcome in Hone.
  - destruct Hone as (_ & Hfree & HvI & _). fold fI in HvI.
    rewrite Hs1, lookup_insert_ne in Hfree by done.
    destruct Hinit as [[x Hx]|HvI']; congruence.
  - destruct Hone as [Htable _]. exists msg, s2. split; [done|].
    rewrite Htable, Hs1. split; [done|]. by rewrite lookup_insert_ne.
Qed.

Lemma X6_constructor_aborts_after_allocator_witness :
  exists msg s',
    @emitConstructor demoExternal demoClassCtor demoStateWithInitializer = (Fault msg, s')
    /\ functions (M s') !! SILConstant_of (ValueDeclLoc 5)
       = Some (@emittedFunction demoExternal (SILConstant_of (ValueDeclLoc 5)) true
                 [StepCreate (OtherInst 10)]).
Proof.
  destruct (X6_constructor_aborts_after_allocator demoExternal demoClassCtor
              demoStateWithInitializer (ex_intro _ demoBody eq_refl) eq_refl
              eq_refl eq_refl (or_introl (ex_intro _ _ eq_refl)))
    as (msg & s' & Hrun & Htable & _).
  exists msg, s'. split; [exact Hrun|]. rewrite Htable. apply lookup_insert_eq.
Defined.


(** ** Emitting twice *)

Section Twice.
Context `{Ext : External}.

Lemma emitOne_Ok_taken c n v steps s g s' :
  emitOne c n v steps s = (Ok g, s') -> is_Some (functions (M s') !! c).
Proof.
  intros Hrun. apply emitOne_Ok_inv in Hrun as (_ & _ & _ & ->).
  rewrite functions_emitted, lookup_insert_eq. by eexists.
Qed.

Lemma emitOne_Ok_grows c n v steps s g s' :
  emitOne c n v steps s = (Ok g, s') -> functions (M s) ⊆ functions (M s').
Proof.
  intros Hrun. apply emitOne_Ok_inv in Hrun as (_ & Hfree & _ & ->).
  rewrite functions_emitted. by apply insert_subseteq.
Qed.

End Twice.

(** X8: an emission that went through cannot be repeated.  After
    [emitFunction] on a function with a body, [emitConstructor] on a
    constructor with a body, [emitClosure] or [emitDestructor] succeeded,
    the same call in the state it left aborts on the assertion of
    preEmitFunction and leaves that state as it is; so does the end of
    scope of a second coordinator for the same class. *)
Theorem X8_repeated_emission_aborts (E : External) (s : SILGenModule) :
  (forall decl fe r s',
      SILGenModule_emitFunction decl fe s = (Ok (Some r), s') ->
      SILGenModule_emitFunction decl fe s'
      = (Fault "already generated function for constant!", s'))
  /\ (forall decl r s',
        emitConstructor decl s = (Ok (Some r), s') ->
        emitConstructor decl s'
        = (Fault "already generated function for constant!", s'))
  /\ (forall ce r s',
        emitClosure ce s = (Ok r, s') ->
        emitClosure ce s' = (Fault "already generated function for constant!", s'))
  /\ (forall cd dd dd' r s',
        emitDestructor cd dd s = (Ok r, s') ->
        emitDestructor cd dd' s'
        = (Fault "already generated function for constant!", s'))
  /\ (forall sgt sgt' cd s',
        dyn_cast_ClassDecl (theType sgt) = Some cd ->
        dyn_cast_ClassDecl (theType sgt') = Some cd ->
        SILGenType_destroy sgt s = (Ok tt, s') ->
        SILGenType_destroy sgt' s'
        = (Fault "already generated function for constant!", s')).
Proof.
  split; [|split; [|split; [|split]]].
  - intros decl fe r s' Hrun. rewrite emitFunction_emitOne in Hrun |- *.
    destruct (fe_body fe) as [body|]; [|done].
    rewrite bind_run in Hrun.
    destruct (emitOne (SILConstant_of decl) _ _ _ s) as [[g|msg] s1] eqn:Hone; [|done].
    unfold ret in Hrun. simplify_eq.
    by rewrite bind_run, emitOne_duplicate by (by eapply emitOne_Ok_taken).
  - intros decl r s' Hrun. rewrite emitConstructor_emitOne in Hrun |- *.
    destruct (ctor_body decl) as [body|]; [|done]. cbv zeta in *.
    set (plain := SILConstant_of (ValueDeclLoc (ctor_id decl))) in *.
    assert (is_Some (functions (M s') !! plain)) as Htaken.
    { destruct (ctor_thisHasReferenceSemantics decl); rewrite bind_run in Hrun;
        destruct (emitOne plain _ true _ s) as [[g|msg] s1] eqn:Hone; try done.
      - rewrite bind_run in Hrun.
        destruct (emitOne _ _ true _ s1) as [[g2|msg2] s2] eqn:Hone2; [|done].
        unfold ret in Hrun. simplify_eq.
        destruct (emitOne_Ok_taken _ _ _ _ _ _ _ Hone) as [x Hx].
        exists x. eapply lookup_weaken; [exact Hx|]. by eapply emitOne_Ok_grows.
      - unfold ret in Hrun. simplify_eq. by eapply emitOne_Ok_taken. }
    destruct (ctor_thisHasReferenceSemantics decl);
      by rewrite bind_run, emitOne_duplicate.
  - intros ce r s' Hrun. rewrite emitClosure_emitOne in Hrun |- *.
    apply emitOne_duplicate. by eapply emitOne_Ok_taken.
  - intros cd dd dd' r s' Hrun. rewrite emitDestructor_emitOne in Hrun |- *.
    apply emitOne_duplicate. by eapply emitOne_Ok_taken.
  - intros sgt sgt' cd s' Hcd Hcd' Hrun. unfold SILGenType_destroy in *.
    rewrite Hcd in Hrun. rewrite Hcd'. rewrite bind_run in Hrun |- *.
    rewrite emitDestructor_emitOne in Hrun |- *.
    destruct (emitOne _ _ true _ s) as [[g|msg] s1] eqn:Hone; [|done].
    unfold ret in Hrun. simplify_eq.
    by rewrite emitOne_duplicate by (by eapply emitOne_Ok_taken).
Qed.

Lemma X8_repeated_emission_aborts_witness :
  @emitDestructor demoExternal demoClass (Some demoDestructor) demoStateWithDestructor
  = (Fault "already generated function for constant!", demoStateWithDestructor).
Proof.
  destruct (@emitDestructor demoExternal demoClass None demoState) as [[r|msg] s'] eqn:Hrun;
    [|by vm_compute in Hrun].
  assert (demoStateWithDestructor = s') as ->
    by (unfold demoStateWithDestructor; by rewrite Hrun).
  exact (proj1 (proj2 (proj2 (proj2 (X8_repeated_emission_aborts demoExternal demoState))))
           demoClass None (Some demoDestructor) r s' Hrun).
Defined.

(** ** What the policies leave alone *)

(** X9: no emission policy, and no end of scope of a coordinator, touches
    the top-level function of the module, the top-level context or the
    verbosity flag, whether it completes or aborts. *)
Theorem X9_policies_keep_toplevel (E : External) (s : SILGenModule) :
  (forall decl fe, frameOf (SILGenModule_emitFunction decl fe s).2 = frameOf s)
  /\ (forall fd, frameOf (visitFuncDecl fd s).2 = frameOf s)
  /\ (forall decl, frameOf (emitConstructor decl s).2 = frameOf s)
  /\ (forall ce, frameOf (emitClosure ce s).2 = frameOf s)
  /\ (forall cd dd, frameOf (emitDestructor cd dd s).2 = frameOf s)
  /\ (forall sgt, frameOf (SILGenType_destroy sgt s).2 = frameOf s)
  /\ (forall pd, visitPatternBindingDecl pd s = (Ok tt, s)).
Proof.
  pose proof (Stable_frame (frameOf s)) as HS.
  split; [|split; [|split; [|split; [|split; [|split]]]]].
  - intros decl fe. by apply (emitFunction_preserves _ decl fe HS).
  - intros fd. by apply (visitFuncDecl_preserves _ fd HS).
  - intros decl. by apply (emitConstructor_preserves _ decl HS).
  - intros ce. by apply (emitClosure_preserves _ ce HS).
  - intros cd dd. by apply (emitDestructor_preserves _ cd dd HS).
  - intros sgt. by apply (SILGenType_destroy_preserves _ sgt HS).
  - done.
Qed.

(** ** The loop over the declarations *)

Section Loop.
Context `{Ext : External}.


Lemma visit_emitsNothing d s : emitsNothing d -> visit d s = (Ok tt, s).
Proof.
  destruct d as [fd|pd|ntd ms|td]; simpl; try done.
  intros Hbody. unfold visitFuncDecl.
  by rewrite bind_run, emitFunction_emitOne, Hbody.
Qed.

Lemma visitAll_emitsNothing ds s :
  Forall emitsNothing ds -> visitAll ds s = (Ok tt, s).
Proof.
  intros Hall. revert s. induction Hall as [|d ds Hd _ IH]; intros s; simpl; [done|].
  by rewrite bind_run, visit_emitsNothing.
Qed.

End Loop.



(** X11: functions without body and pattern bindings generate nothing.  A
    list made of such declarations is visited without abort and leaves the
    state as it was; a translation unit made of them is lowered to a
    module with an empty function table. *)
Theorem X11_prototypes_and_globals_generate_nothing
    (E : External) (tu : TranslationUnit) (verbose : bool) :
  Forall emitsNothing (Decls tu) ->
  (forall s, visitAll (Decls tu) s = (Ok tt, s))
  /\ exists m, constructSIL tu verbose = Ok m /\ functions m = ∅.
Proof.
  intros Hall. split; [intros s; by apply visitAll_emitsNothing|].
  unfold constructSIL, constructSIL_run.
  rewrite bind_run, visitAll_emitsNothing by done.
  set (s0 := SILGenModule_new _ _).
  pose proof (SILGenModule_destroy_functions s0) as Hf.
  assert (exists s1, SILGenModule_destroy s0 = (Ok tt, s1)) as [s1 Hs1].
  { unfold SILGenModule_destroy, s0. rewrite SILGenModule_new_TopLevelSGF.
    unfold SILModule_new. simpl.
    destruct (constructSIL_hasTopLevel (Kind tu)); simpl; by eexists. }
  rewrite Hs1 in Hf |- *. simpl in Hf. exists (M s1). split; [done|]. by rewrite Hf.
Qed.

Lemma X11_prototypes_and_globals_generate_nothing_witness :
  exists m,
    @constructSIL demoExternal
      {| Kind := Main;
         Decls := [FuncDeclD {| fd_id := 2; fd_body := demoPrototype |};
                   PatternBindingDeclD {| pbd_id := 4 |}] |} true = Ok m
    /\ functions m = ∅.
Proof.
  apply (X11_prototypes_and_globals_generate_nothing demoExternal
           {| Kind := Main;
              Decls := [FuncDeclD {| fd_id := 2; fd_body := demoPrototype |};
                        PatternBindingDeclD {| pbd_id := 4 |}] |} true).
  repeat constructor.
Defined.

(** ** Verbosity *)

Lemma respects_ret {A} (a : A) : respects (ret a).
Proof. by intros s1 s2 Hs. Qed.

Lemma respects_bind {A R} (m : Gen A) (k : A -> Gen R) :
  respects m -> (forall a, respects (k a)) -> respects (bind m k).
Proof.
  intros Hm Hk s1 s2 Hs. rewrite !bind_run.
  destruct (Hm s1 s2 Hs) as [Ho Hs'].
  destruct (m s1) as [[a1|msg1] s1'], (m s2) as [[a2|msg2] s2']; simpl in *;
    simplify_eq; [by apply Hk | done].
Qed.

Lemma respects_assert cond msg : respects (assert cond msg).
Proof. intros s1 s2 Hs. unfold assert. by destruct cond. Qed.

Lemma respects_dump ds : respects (dump ds).
Proof.
  intros s1 s2 [HM HT]. split; [done|].
  change (sameModule (logged ds s1) (logged ds s2)). unfold sameModule.
  by rewrite !M_logged, !TopLevelSGF_logged.
Qed.

Lemma respects_setFunction c f : respects (setFunction c f).
Proof. intros s1 s2 [HM HT]. unfold setFunction, sameModule. simpl. by rewrite HM, HT. Qed.

Lemma respects_withSILGenFunction f v steps : respects (withSILGenFunction f v steps).
Proof. intros s1 s2 Hs. by rewrite !withSILGenFunction_run. Qed.

Section Verbosity.
Context `{Ext : External}.

Lemma respects_preEmitFunction c n : respects (preEmitFunction c n).
Proof.
  intros s1 s2 Hs. rewrite !preEmitFunction_run.
  destruct Hs as [HM HT]. rewrite HM.
  destruct (hasFunction (M s2) c); [done|]. split; [done|].
  unfold sameModule. cbn [snd]. by rewrite !M_logged, !TopLevelSGF_logged, HM, HT.
Qed.

Lemma respects_postEmitFunction c f : respects (postEmitFunction c f).
Proof.
  unfold postEmitFunction.
  apply respects_bind; [apply respects_dump|]. intros _.
  apply respects_bind; [apply respects_assert|]. intros _.
  apply respects_setFunction.
Qed.

Lemma respects_emitOne c n v steps : respects (emitOne c n v steps).
Proof.
  unfold emitOne.
  apply respects_bind; [apply respects_preEmitFunction|]. intros f.
  apply respects_bind; [apply respects_withSILGenFunction|]. intros g.
  apply respects_bind; [apply respects_postEmitFunction|]. intros _.
  apply respects_ret.
Qed.

Lemma respects_emitFunction decl fe : respects (SILGenModule_emitFunction decl fe).
Proof.
  intros s1 s2 Hs. rewrite !emitFunction_emitOne.
  destruct (fe_body fe); [|done]. revert s1 s2 Hs.
  apply respects_bind; [apply respects_emitOne|]. intros f. apply respects_ret.
Qed.

Lemma respects_visitFuncDecl fd : respects (visitFuncDecl fd).
Proof.
  apply respects_bind; [apply respects_emitFunction|]. intros _. apply respects_ret.
Qed.

Lemma respects_emitConstructor decl : respects (emitConstructor decl).
Proof.
  intros s1 s2 Hs. rewrite !emitConstructor_emitOne.
  destruct (ctor_body decl); [|done]. cbv zeta.
  destruct (ctor_thisHasReferenceSemantics decl); revert s1 s2 Hs.
  - apply respects_bind; [apply respects_emitOne|]. intros f.
    apply respects_bind; [apply respects_emitOne|]. intros _. apply respects_ret.
  - apply respects_bind; [apply respects_emitOne|]. intros f. apply respects_ret.
Qed.

Lemma respects_emitClosure ce : respects (emitClosure ce).
Proof. intros s1 s2 Hs. rewrite !emitClosure_emitOne. by apply respects_emitOne. Qed.

Lemma respects_emitDestructor cd dd : respects (emitDestructor cd dd).
Proof. intros s1 s2 Hs. rewrite !emitDestructor_emitOne. by apply respects_emitOne. Qed.

Lemma respects_SILGenType_destroy sgt : respects (SILGenType_destroy sgt).
Proof.
  unfold SILGenType_destroy. destruct (dyn_cast_ClassDecl (theType sgt)).
  - apply respects_bind; [apply respects_emitDestructor|]. intros _. apply respects_ret.
  - apply respects_assert.
Qed.

Lemma respects_SILGenType_visitAll sgt ms : respects (SILGenType_visitAll sgt ms).
Proof.
  revert sgt. induction ms as [|m ms IH]; intros sgt; simpl; [apply respects_ret|].
  apply respects_bind; [|apply IH]. destruct m; simpl.
  - apply respects_bind; [apply respects_visitFuncDecl|]. intros _. apply respects_ret.
  - apply respects_bind; [apply respects_emitConstructor|]. intros _. apply respects_ret.
  - apply respects_ret.
  - apply respects_ret.
Qed.

Lemma respects_visit d : respects (visit d).
Proof.
  destruct d as [fd|pd|ntd ms|td]; simpl.
  - apply respects_visitFuncDecl.
  - apply respects_ret.
  - apply respects_bind; [apply respects_SILGenType_visitAll|].
    intros sgt. apply respects_SILGenType_destroy.
  - intros s1 s2 [HM HT]. rewrite !visitTopLevelCodeDecl_run. split; [done|].
    unfold sameModule, mapTopLevelSGF. simpl. by rewrite HM, HT.
Qed.

Lemma respects_visitAll ds : respects (visitAll ds).
Proof.
  induction ds as [|d ds IH]; simpl; [apply respects_ret|].
  apply respects_bind; [apply respects_visit | by intros _].
Qed.

Lemma respects_SILGenModule_destroy : respects SILGenModule_destroy.
Proof.
  intros s1 s2 [HM HT]. unfold SILGenModule_destroy. rewrite HT.
  destruct (TopLevelSGF s2) as [sgf|] eqn:Hsgf;
    [|split; [done|]; unfold sameModule; simpl; split; congruence].
  destruct (SILGenFunction_destroy sgf);
    [|split; [done|]; unfold sameModule; simpl; split; congruence].
  split; [done|]. unfold sameModule. simpl. by rewrite HM.
Qed.

Lemma quiet_kept_by_visitAll ds s :
  Verbose s = false ->
  Verbose (visitAll ds s).2 = false /\ errs (visitAll ds s).2 = errs s.
Proof.
  intros Hq.
  apply (visitAll_preserves (fun s' => Verbose s' = false /\ errs s' = errs s)); [| |done].
  - split.
    + intros ds' s' [Hv He]. by rewrite Verbose_logged, errs_logged, Hv.
    + by intros c f s' Hs' _ _.
  - by intros g s' Hs'.
Qed.

End Verbosity.

(** X12: the verbosity flag has no effect on the result: [constructSIL]
    ends in the same outcome, with the same module, for either value of
    [verbose]. *)
Theorem X12_verbose_does_not_change_the_module
    (E : External) (tu : TranslationUnit) (v1 v2 : bool) :
  constructSIL tu v1 = constructSIL tu v2.
Proof.
  unfold constructSIL, constructSIL_run.
  set (m := SILModule_new _ _).
  assert (sameModule (SILGenModule_new m v1) (SILGenModule_new m v2)) as Hs by done.
  pose proof (respects_bind (visitAll (Decls tu)) (fun _ => SILGenModule_destroy)
                (respects_visitAll (Decls tu)) (fun _ => respects_SILGenModule_destroy)
                _ _ Hs) as [Ho [HM _]].
  destruct ((visitAll (Decls tu);;; SILGenModule_destroy) (SILGenModule_new m v1))
    as [[[]|msg1] s1],
    ((visitAll (Decls tu);;; SILGenModule_destroy) (SILGenModule_new m v2))
    as [[[]|msg2] s2]; simpl in *; congruence.
Qed.

(** X13: without the verbosity flag nothing is written: visiting any
    declarations from a state whose flag is clear leaves the flag clear
    and the stream as it was, and [constructSIL] called with the flag
    clear writes nothing, whether it completes or aborts. *)
Theorem X13_quiet_run_writes_nothing (E : External) :
  (forall ds s,
      Verbose s = false ->
      Verbose (visitAll ds s).2 = false /\ errs (visitAll ds s).2 = errs s)
  /\ (forall tu, errs (constructSIL_run tu false).2 = []).
Proof.
  split; [intros ds s; apply quiet_kept_by_visitAll|].
  intros tu. unfold constructSIL_run. rewrite bind_run.
  set (s0 := SILGenModule_new _ false).
  destruct (quiet_kept_by_visitAll (Decls tu) s0 eq_refl) as [_ He].
  destruct (visitAll (Decls tu) s0) as [[[]|msg] s1]; simpl in *; [|done].
  unfold SILGenModule_destroy. destruct (TopLevelSGF s1) as [sgf|]; [|done].
  by destruct (SILGenFunction_destroy sgf).
Qed.

Lemma X13_quiet_run_writes_nothing_witness :
  Verbose (@visitAll demoExternal (Decls demoUnit)
             {| M := M demoState; TopLevelSGF := None; Verbose := false; errs := [] |}).2
  = false
  /\ errs (@visitAll demoExternal (Decls demoUnit)
             {| M := M demoState; TopLevelSGF := None; Verbose := false; errs := [] |}).2
     = [].
Proof.
  apply (proj1 (X13_quiet_run_writes_nothing demoExternal) (Decls demoUnit)
           {| M := M demoState; TopLevelSGF := None; Verbose := false; errs := [] |}).
  reflexivity.
Defined.

(** ** What the table holds *)

Lemma fnType_SILBuilder_insert i b :
  fnType (builderF (SILBuilder_insert i b)) = fnType (builderF b).
Proof. unfold SILBuilder_insert. by destruct (BB b). Qed.

Lemma fnType_emitCleanups cs b :
  fnType (builderF (emitCleanups cs b)) = fnType (builderF b).
Proof.
  unfold emitCleanups. revert b. induction cs as [|c cs IH]; intros b; simpl; [done|].
  rewrite IH. apply fnType_SILBuilder_insert.
Qed.

Lemma fnType_runSteps steps sgf :
  fnType (F (runSteps steps sgf)) = fnType (F sgf).
Proof.
  unfold runSteps. revert sgf. induction steps as [|st steps IH]; intros sgf; simpl; [done|].
  rewrite IH. unfold F. destruct st; simpl.
  - apply fnType_SILBuilder_insert.
  - unfold emitBlock, BasicBlock_new, createBranch. simpl.
    by rewrite fnType_SILBuilder_insert.
  - done.
  - unfold createReturn. by rewrite fnType_SILBuilder_insert, fnType_emitCleanups.
Qed.

Lemma fnType_epilogue sgf : fnType (F (epilogue sgf)) = fnType (F sgf).
Proof. unfold epilogue. by destruct (BB (B sgf)). Qed.

Lemma fnType_loweredFunction f v steps :
  fnType (loweredFunction f v steps) = fnType f.
Proof.
  by rewrite loweredFunction_epilogue, fnType_epilogue, fnType_runSteps.
Qed.

Section Table.
Context `{Ext : External}.

(** A property kept by verbose output and by recording, under a free
    key, the verified function lowered for that key is kept by a single
    emission. *)
Lemma emitOne_preserves_emitted (P : SILGenModule -> Prop) c n v steps :
  (forall ds s, P s -> P (logged ds s)) ->
  (forall s, P s -> functions (M s) !! c = None ->
             verify (emittedFunction c v steps) = true ->
             P (stored c (emittedFunction c v steps) s)) ->
  preserves P (emitOne c n v steps).
Proof.
  intros Hlog Hstore s HP. rewrite emitOne_run.
  destruct (hasFunction (M s) c) eqn:Hc; [done|]. cbv zeta.
  destruct (verify (emittedFunction c v steps)) eqn:Hv; cbn [snd].
  - unfold emitted. apply Hstore; [by apply Hlog, Hlog | | done].
    rewrite !M_logged. by apply hasFunction_false.
  - by apply Hlog, Hlog.
Qed.

(** A property kept by the three policies the visitors call and by the
    lowering of top-level code is kept by the visit of any declarations. *)
Lemma visitAll_preserves_by_policies (P : SILGenModule -> Prop) ds :
  (forall decl fe, preserves P (SILGenModule_emitFunction decl fe)) ->
  (forall decl, preserves P (emitConstructor decl)) ->
  (forall cd dd, preserves P (emitDestructor cd dd)) ->
  (forall g s, P s -> P (mapTopLevelSGF g s)) ->
  preserves P (visitAll ds).
Proof.
  intros Hfun Hctor Hdtor Hmap.
  assert (forall fd, preserves P (visitFuncDecl fd)) as Hfd.
  { intros fd. apply preserves_bind; [apply Hfun|]. intros _. apply preserves_ret. }
  assert (forall ms sgt, preserves P (SILGenType_visitAll sgt ms)) as Hmembers.
  { induction ms as [|m ms IH]; intros sgt; simpl; [apply preserves_ret|].
    apply preserves_bind; [|apply IH]. destruct m; simpl.
    - apply preserves_bind; [apply Hfd|]. intros _. apply preserves_ret.
    - apply preserves_bind; [apply Hctor|]. intros _. apply preserves_ret.
    - apply preserves_ret.
    - apply preserves_ret. }
  assert (forall sgt, preserves P (SILGenType_destroy sgt)) as Hend.
  { intros sgt. unfold SILGenType_destroy.
    destruct (dyn_cast_ClassDecl (theType sgt)).
    - apply preserves_bind; [apply Hdtor|]. intros _. apply preserves_ret.
    - apply preserves_assert. }
  induction ds as [|d ds IH]; simpl; [apply preserves_ret|].
  apply preserves_bind; [|by intros _].
  destruct d as [fd|pd|ntd ms|td]; simpl.
  - apply Hfd.
  - apply preserves_ret.
  - apply preserves_bind; [apply Hmembers | apply Hend].
  - intros s Hs. rewrite visitTopLevelCodeDecl_run. by apply Hmap.
Qed.

Lemma entryVerified_emitted c v steps :
  verify (emittedFunction c v steps) = true ->
  entryVerified c (emittedFunction c v steps).
Proof.
  intros Hv. split; [done|]. unfold emittedFunction.
  by rewrite fnType_loweredFunction.
Qed.

Lemma emitOne_keeps_entries c n v steps :
  preserves (fun s => map_Forall entryVerified (functions (M s))) (emitOne c n v steps).
Proof.
  apply emitOne_preserves_emitted.
  - intros ds s Hs. by rewrite M_logged.
  - intros s Hs _ Hv. rewrite functions_stored.
    apply map_Forall_insert_2; [by apply entryVerified_emitted | done].
Qed.

Lemma visitAll_keeps_entries ds :
  preserves (fun s => map_Forall entryVerified (functions (M s))) (visitAll ds).
Proof.
  apply visitAll_preserves_by_policies.
  - intros decl fe s Hs. rewrite emitFunction_emitOne. destruct (fe_body fe); [|done].
    revert s Hs. apply (preserves_bind (fun s => map_Forall entryVerified (functions (M s)))); [apply emitOne_keeps_entries|].
    intros f. apply preserves_ret.
  - intros decl s Hs. rewrite emitConstructor_emitOne.
    destruct (ctor_body decl); [|done]. cbv zeta.
    destruct (ctor_thisHasReferenceSemantics decl); revert s Hs.
    + apply (preserves_bind (fun s => map_Forall entryVerified (functions (M s))));
        [apply emitOne_keeps_entries|]. intros f.
      apply (preserves_bind (fun s => map_Forall entryVerified (functions (M s))));
        [apply emitOne_keeps_entries|]. intros _.
      apply preserves_ret.
    + apply (preserves_bind (fun s => map_Forall entryVerified (functions (M s))));
        [apply emitOne_keeps_entries|]. intros f.
      apply preserves_ret.
  - intros cd dd s Hs. rewrite emitDestructor_emitOne. by apply emitOne_keeps_entries.
  - by intros g s Hs.
Qed.

(** The invariant on initializers. *)

Lemma initializersFollowAllocators_insert_other c f t :
  kind c <> Initializer ->
  initializersFollowAllocators t -> initializersFollowAllocators (<[c := f]> t).
Proof.
  intros Hkind Ht l Hinit.
  rewrite lookup_insert_ne in Hinit by (intros ->; by apply Hkind).
  destruct (Ht l Hinit) as [g Hg].
  destruct (decide (c = SILConstant_of l)) as [->|Hne].
  - rewrite lookup_insert_eq. by eexists.
  - rewrite lookup_insert_ne by done. by eexists.
Qed.

Lemma initializersFollowAllocators_insert_initializer l f t :
  is_Some (t !! SILConstant_of l) ->
  initializersFollowAllocators t ->
  initializersFollowAllocators (<[mkSILConstant l Initializer := f]> t).
Proof.
  intros Hplain Ht l' Hinit.
  rewrite lookup_insert_ne by done.
  destruct (decide (l' = l)) as [->|Hne]; [done|].
  apply Ht. rewrite lookup_insert_ne in Hinit; [done|]. intros Heq. by simplify_eq.
Qed.

Lemma emitOne_keeps_initializers c n v steps :
  kind c <> Initializer ->
  preserves (fun s => initializersFollowAllocators (functions (M s))) (emitOne c n v steps).
Proof.
  intros Hkind. apply emitOne_preserves_emitted.
  - intros ds s Hs. by rewrite M_logged.
  - intros s Hs _ _. rewrite functions_stored.
    by apply initializersFollowAllocators_insert_other.
Qed.

Lemma emitConstructor_keeps_initializers decl :
  preserves (fun s => initializersFollowAllocators (functions (M s))) (emitConstructor decl).
Proof.
  intros s Hs. rewrite emitConstructor_emitOne.
  destruct (ctor_body decl); [|done]. cbv zeta.
  set (l := ValueDeclLoc (ctor_id decl)).
  destruct (ctor_thisHasReferenceSemantics decl).
  - rewrite bind_run.
    pose proof (emitOne_keeps_initializers (SILConstant_of l) (Some (ctor_id decl)) true
                  (SILGenFunction_emitClassConstructorAllocator decl)
                  ltac:(done) s Hs) as Hs1.
    destruct (emitOne (SILConstant_of l) _ true _ s) as [[g|msg] s1] eqn:Hrun1;
      cbn [snd] in Hs1; [|done].
    pose proof (emitOne_Ok_taken _ _ _ _ _ _ _ Hrun1) as Htaken.
    rewrite bind_run.
    destruct (emitOne (mkSILConstant l Initializer) _ true _ s1)
      as [[g2|msg2] s2] eqn:Hrun2; cbn [snd].
    + apply emitOne_Ok_inv in Hrun2 as (_ & _ & _ & ->).
      unfold ret. cbn [snd]. rewrite functions_emitted.
      by apply initializersFollowAllocators_insert_initializer.
    + apply emitOne_Fault_inv in Hrun2 as [-> _]. done.
  - revert s Hs. apply (preserves_bind (fun s => initializersFollowAllocators (functions (M s)))); [by apply emitOne_keeps_initializers|].
    intros f. apply preserves_ret.
Qed.

Lemma visitAll_keeps_initializers ds :
  preserves (fun s => initializersFollowAllocators (functions (M s))) (visitAll ds).
Proof.
  apply visitAll_preserves_by_policies.
  - intros decl fe s Hs. rewrite emitFunction_emitOne. destruct (fe_body fe); [|done].
    revert s Hs. apply (preserves_bind (fun s => initializersFollowAllocators (functions (M s)))); [by apply emitOne_keeps_initializers|].
    intros f. apply preserves_ret.
  - apply emitConstructor_keeps_initializers.
  - intros cd dd s Hs. rewrite emitDestructor_emitOne.
    by apply emitOne_keeps_initializers.
  - by intros g s Hs.
Qed.

Lemma constructSIL_run_functions tu verbose :
  functions (M (constructSIL_run tu verbose).2)
  = functions (M (visitAll (Decls tu)
                    (SILGenModule_new
                       (SILModule_new (constructSIL_hasTopLevel (Kind tu)) toplevelType)
                       verbose)).2).
Proof.
  unfold constructSIL_run. rewrite bind_run.
  destruct (visitAll (Decls tu) _) as [[[]|msg] s1]; cbn [snd]; [|done].
  apply SILGenModule_destroy_functions.
Qed.

End Table.

(** X14: every function in the table of the module under construction,
    whether the pass completes or aborts, passed verification and has the
    type the type converter gives for the key it is recorded under: the
    shell made by preEmitFunction keeps its type through the lowering, and
    postEmitFunction records it under the same key only after verify. *)
Theorem X14_entries_verified_and_typed
    (E : External) (tu : TranslationUnit) (verbose : bool)
    (c : SILConstant) (f : Function) :
  functions (M (constructSIL_run tu verbose).2) !! c = Some f ->
  verify f = true /\ fnType f = getConstantType c.
Proof.
  rewrite constructSIL_run_functions. revert c f.
  apply (visitAll_keeps_entries (Decls tu)). apply map_Forall_empty.
Qed.

Lemma X14_entries_verified_and_typed_witness :
  functions (M (@constructSIL_run demoExternal demoUnit false).2)
    !! mkSILConstant (ValueDeclLoc 8) Destructor
  = Some {| fnType := {| siltype_id := 2 |};
            blocks := [[OtherInst 14; TupleInst []; ReturnInst (InstValue 0 1)]] |}
  /\ @verify demoExternal
       {| fnType := {| siltype_id := 2 |};
          blocks := [[OtherInst 14; TupleInst []; ReturnInst (InstValue 0 1)]] |} = true.
Proof.
  assert (functions (M (@constructSIL_run demoExternal demoUnit false).2)
            !! mkSILConstant (ValueDeclLoc 8) Destructor
          = Some {| fnType := {| siltype_id := 2 |};
                    blocks := [[OtherInst 14; TupleInst []; ReturnInst (InstValue 0 1)]] |})
    as Hf by (vm_compute; reflexivity).
  split; [exact Hf|].
  exact (proj1 (X14_entries_verified_and_typed demoExternal demoUnit false _ _ Hf)).
Defined.

(** X15: an initializer is never in the table without its allocator.
    [emitConstructor] keeps this in every outcome, since it records the
    allocator before it turns to the initializer; so does the visit of any
    declarations, and it holds of the module under construction whether
    the pass completes or aborts. *)
Theorem X15_initializer_follows_allocator (E : External) :
  (forall decl s,
      initializersFollowAllocators (functions (M s)) ->
      initializersFollowAllocators (functions (M (emitConstructor decl s).2)))
  /\ (forall ds s,
        initializersFollowAllocators (functions (M s)) ->
        initializersFollowAllocators (functions (M (visitAll ds s).2)))
  /\ (forall tu verbose l,
        is_Some (functions (M (constructSIL_run tu verbose).2)
                   !! mkSILConstant l Initializer) ->
        is_Some (functions (M (constructSIL_run tu verbose).2) !! SILConstant_of l)).
Proof.
  split; [|split].
  - intros decl s Hs. by apply (emitConstructor_keeps_initializers decl s).
  - intros ds s Hs. by apply (visitAll_keeps_initializers ds s).
  - intros tu verbose. rewrite constructSIL_run_functions.
    apply (visitAll_keeps_initializers (Decls tu)). by intros l [x Hx].
Qed.

Lemma X15_initializer_follows_allocator_witness :
  is_Some (functions (M (@constructSIL_run demoExternal demoUnit false).2)
             !! mkSILConstant (ValueDeclLoc 5) Initializer)
  /\ is_Some (functions (M (@constructSIL_run demoExternal demoUnit false).2)
                !! SILConstant_of (ValueDeclLoc 5)).
Proof.
  assert (is_Some (functions (M (@constructSIL_run demoExternal demoUnit false).2)
                     !! mkSILConstant (ValueDeclLoc 5) Initializer)) as Hinit
    by (eexists; vm_compute; reflexivity).
  split; [exact Hinit|].
  exact (proj2 (proj2 (X15_initializer_follows_allocator demoExternal))
           demoUnit false (ValueDeclLoc 5) Hinit).
Defined.
